(** * The text cleaning, post-processing and translation cache of
      [BilingualTranslationPipeline] (translation.py)

    Python strings are sequences of Unicode code points: a character is
    a code point in [N], a [str] a list of them.  The substitutions the
    program performs with [re.sub] are run by a small backtracking
    matcher over the regular expressions written as in the source.  The
    translation engine (tokenizer and model) and the Unicode tables of
    the Python libraries are parameters of the development. *)

From Stdlib Require Import NArith Ascii String.
From stdpp Require Import gmap list.

Local Open Scope N_scope.

(** ** Characters and strings *)

Abbreviation char := N (only parsing).
Abbreviation str := (list N) (only parsing).

(** Source literals are written as UTF-8 byte strings and decoded to
    code points. *)
Fixpoint utf8_dec (bs : list N) : str :=
  match bs with
  | [] => []
  | b :: r =>
    if b <? 0x80 then b :: utf8_dec r
    else if b <? 0xE0 then
      match r with
      | b1 :: r1 => ((b - 0xC0) * 64 + (b1 - 0x80)) :: utf8_dec r1
      | _ => []
      end
    else if b <? 0xF0 then
      match r with
      | b1 :: b2 :: r2 =>
          ((b - 0xE0) * 4096 + (b1 - 0x80) * 64 + (b2 - 0x80)) :: utf8_dec r2
      | _ => []
      end
    else
      match r with
      | b1 :: b2 :: b3 :: r3 =>
          ((b - 0xF0) * 262144 + (b1 - 0x80) * 4096 + (b2 - 0x80) * 64
           + (b3 - 0x80)) :: utf8_dec r3
      | _ => []
      end
  end.

Definition utf8 (s : string) : str :=
  utf8_dec (map Byte.to_N (list_byte_of_string s)).

Definition SPACE : char := 32.

(** [str.isspace], which is also the class [\s] of [re] on [str]
    patterns and the set [str.strip()] removes. *)
Definition is_space (c : char) : bool :=
  ((0x09 <=? c) && (c <=? 0x0D)) || ((0x1C <=? c) && (c <=? 0x20))
  || (c =? 0x85) || (c =? 0xA0) || (c =? 0x1680)
  || ((0x2000 <=? c) && (c <=? 0x200A))
  || (c =? 0x2028) || (c =? 0x2029) || (c =? 0x202F) || (c =? 0x205F)
  || (c =? 0x3000).

(** The ASCII part of the class [\w]: letters, digits and underscore. *)
Definition ascii_word (c : char) : bool :=
  ((0x30 <=? c) && (c <=? 0x39)) || ((0x41 <=? c) && (c <=? 0x5A))
  || (c =? 0x5F) || ((0x61 <=? c) && (c <=? 0x7A)).

Definition in_range (lo hi c : char) : bool := (lo <=? c) && (c <=? hi).

Definition one_of (cs : str) (c : char) : bool := existsb (N.eqb c) cs.

(** [str.strip()]: leading and trailing whitespace removed. *)
Fixpoint py_lstrip (s : str) : str :=
  match s with
  | c :: s' => if is_space c then py_lstrip s' else s
  | [] => []
  end.

Definition py_rstrip (s : str) : str := reverse (py_lstrip (reverse s)).

Definition py_strip (s : str) : str := py_rstrip (py_lstrip s).

(** [str.replace(a, b)] for one-character [a] and [b]. *)
Definition py_replace (a b : char) (s : str) : str :=
  map (fun c => if c =? a then b else c) s.

(** ** Regular expressions: the fragment of [re] the program uses *)

Module Re.

(** A character set stands for a literal, a class such as [\s] or a
    bracket expression; [Group n r] is the n-th capturing group;
    [WordB] is [\b], [End] is [$]. *)
Inductive regex : Type :=
| Eps
| Set_ (p : char -> bool)
| Seq (r1 r2 : regex)
| Alt (r1 r2 : regex)
| Plus (r : regex)
| Group (n : nat) (r : regex)
| WordB (w : char -> bool)
| End.

Definition captures : Type := list (nat * str).

(** A match result: the text left after the match and the groups. *)
Definition result : Type := option (str * captures).

Definition kont : Type := option char -> str -> captures -> result.

Definition accept : kont := fun _ s cs => Some (s, cs).

Definition orelse (a b : result) : result :=
  match a with Some x => Some x | None => b end.

Definition word_before (w : char -> bool) (prev : option char) : bool :=
  match prev with Some c => w c | None => false end.

Definition word_after (w : char -> bool) (s : str) : bool :=
  match s with c :: _ => w c | [] => false end.

(** [$] matches at the end of the text and before a newline that
    ends it. *)
Definition at_end (s : str) : bool :=
  match s with
  | [] => true
  | [c] => c =? 10
  | _ => false
  end.

(** The iterations of a greedy [+]: after each match of the body a
    further iteration is tried first, and the rest of the pattern only
    when that fails.  [n] bounds the iterations; each consumes a
    character, so the length of the text plus one is enough. *)
Fixpoint plus_loop (body : option char -> str -> captures -> kont -> result)
    (k : kont) (n : nat) (prev : option char) (s : str) (cs : captures)
    {struct n} : result :=
  match n with
  | O => None
  | S n' =>
      body prev s cs (fun prev' s' cs' =>
        if (length s' <? length s)%nat
        then orelse (plus_loop body k n' prev' s' cs') (k prev' s' cs')
        else k prev' s' cs')
  end.

(** Backtracking matcher in continuation-passing style: alternatives
    are tried left to right and [+] is greedy, as in [re].  [prev] is
    the character before the current position, which [\b] looks at. *)
Fixpoint rmatch (r : regex) (prev : option char) (s : str) (cs : captures)
    (k : kont) {struct r} : result :=
  match r with
  | Eps => k prev s cs
  | Set_ p =>
      match s with
      | c :: s' => if p c then k (Some c) s' cs else None
      | [] => None
      end
  | Seq r1 r2 =>
      rmatch r1 prev s cs (fun prev' s' cs' => rmatch r2 prev' s' cs' k)
  | Alt r1 r2 => orelse (rmatch r1 prev s cs k) (rmatch r2 prev s cs k)
  | Plus r1 => plus_loop (rmatch r1) k (S (length s)) prev s cs
  | Group n r1 =>
      rmatch r1 prev s cs (fun prev' s' cs' =>
        k prev' s' ((n, take (length s - length s')%nat s) :: cs'))
  | WordB w => if xorb (word_before w prev) (word_after w s)
               then k prev s cs else None
  | End => if at_end s then k prev s cs else None
  end.

(** The literal string [cs]. *)
Fixpoint lit (cs : str) : regex :=
  match cs with
  | [] => Eps
  | [c] => Set_ (N.eqb c)
  | c :: cs' => Seq (Set_ (N.eqb c)) (lit cs')
  end.

(** A match attempt at the current position: the number of characters
    consumed and the groups. *)
Definition match_at (r : regex) (prev : option char) (s : str)
    : option (nat * captures) :=
  match rmatch r prev s [] accept with
  | Some (rest, cs) => Some ((length s - length rest)%nat, cs)
  | None => None
  end.

(** Replacement templates: literal characters and [\n] references. *)
Inductive titem : Type :=
| TChr (c : char)
| TRef (n : nat).

Fixpoint group (n : nat) (cs : captures) : str :=
  match cs with
  | [] => []
  | (m, g) :: cs' => if (m =? n)%nat then g else group n cs'
  end.

Definition expand (t : list titem) (cs : captures) : str :=
  flat_map (fun i => match i with TChr c => [c] | TRef n => group n cs end) t.

(** [re.sub]: leftmost, non-overlapping matches are replaced, scanning
    left to right.  [skip] counts the characters of the current match
    still to be passed over.  Every pattern of the program consumes at
    least one character, so the rule of [re.sub] for empty matches
    does not arise; a position with an empty match is left as it is. *)
Fixpoint sub_go (r : regex) (t : list titem) (skip : nat)
    (prev : option char) (s : str) {struct s} : str :=
  match s with
  | [] => []
  | c :: s' =>
      match skip with
      | S j => sub_go r t j (Some c) s'
      | O =>
          match match_at r prev s with
          | Some (S j, cs) => expand t cs ++ sub_go r t j (Some c) s'
          | _ => c :: sub_go r t O (Some c) s'
          end
      end
  end.

Definition sub (r : regex) (t : list titem) (s : str) : str :=
  sub_go r t O None s.

End Re.

(** ** The pipeline *)

(** The keys of [MODEL_CONFIGS]. *)
Inductive Direction : Type := ar_en | en_ar.

Definition src_lang (d : Direction) : str :=
  match d with ar_en => utf8 "ar" | en_ar => utf8 "en" end.

Definition tgt_lang (d : Direction) : str :=
  match d with ar_en => utf8 "en" | en_ar => utf8 "ar" end.

(** The dictionary [translate_text] builds. [cleaned] is what
    [clean_text] returned, [None] included. *)
Record TranslationResult : Type := {
  original : str;
  cleaned : option str;
  translated : str
}.

(** [self.arabic_normalizer] *)
Definition arabic_normalizer : gmap N N :=
  list_to_map [(0x625, 0x627); (0x623, 0x627); (0x622, 0x627);
               (0x671, 0x627); (0x649, 0x64A); (0x629, 0x647)].

Definition QUOTE : char := 34.

(** The patterns of the source, in the order they appear there. *)
Definition diacritics : Re.regex := Re.Set_ (in_range 0x64B 0x65F).

Definition ws_run : Re.regex := Re.Plus (Re.Set_ is_space).

Definition article : Re.regex :=
  Re.Alt (Re.lit (utf8 "a")) (Re.Alt (Re.lit (utf8 "an")) (Re.lit (utf8 "the"))).

Definition punct_after_space (marks : str) : Re.regex :=
  Re.Seq (Re.Set_ is_space)
    (Re.Group 1 (Re.Seq (Re.Set_ (one_of marks))
                        (Re.Alt (Re.Set_ is_space) Re.End))).

Section Pipeline.

(** What the Python libraries supply: [unicodedata.normalize('NFKD', _)],
    [emoji.replace_emoji(_, replace='')], the class [\w] and
    [str.upper] outside ASCII. *)
Variable nfkd : str -> str.
Variable replace_emoji : str -> str.
Variable uword : char -> bool.
Variable uupper : char -> str.

(** The translation engine: tokenizer, [model.generate] and
    [tokenizer.decode] taken together.  It has a state of its own,
    receives what [clean_text] returned and either raises or returns
    the decoded text. *)
Variable W : Type.
Variable E : Type.
Variable engine : W -> option str -> W * (E + str).

Definition is_word (c : char) : bool :=
  if c <? 128 then ascii_word c else uword c.

(** [c.upper()] for a one-character string. *)
Definition py_upper (c : char) : str :=
  if c <? 128 then (if in_range 0x61 0x7A c then [c - 32] else [c])
  else uupper c.

(** The characters the two bracket expressions of [clean_text] keep. *)
Definition allowed_ar (c : char) : bool :=
  is_word c || is_space c || in_range 0x600 0x6FF c
  || one_of (utf8 ".,!?؛،:'" ++ QUOTE :: utf8 "()-") c.

Definition allowed_en (c : char) : bool :=
  is_word c || is_space c || one_of (utf8 ".,!?'" ++ QUOTE :: utf8 "()-") c.

Definition ar_disallowed : Re.regex := Re.Set_ (fun c => negb (allowed_ar c)).

Definition en_disallowed : Re.regex := Re.Set_ (fun c => negb (allowed_en c)).

Definition allowed (lang : str) : char -> bool :=
  if decide (lang = utf8 "ar") then allowed_ar else allowed_en.

Definition double_article : Re.regex :=
  Re.Seq (Re.WordB is_word)
    (Re.Seq (Re.Group 1 article)
       (Re.Seq ws_run (Re.Seq (Re.Group 2 article) (Re.WordB is_word)))).

Definition normalize_arabic (text : str) : str :=
  let text := nfkd text in
  let text := map (fun c => default c (arabic_normalizer !! c)) text in
  let text := Re.sub diacritics [] text in
  text.

(** [clean_text] on a [str] argument (the coercion of other values by
    [str(text)] happens before).  [clean_steps] is the body up to the
    [return]: the value of [text] there. *)
Definition clean_steps (text : str) (lang : str) : str :=
  let text := py_strip (Re.sub ws_run [Re.TChr SPACE] text) in
  let text := replace_emoji text in
  let text :=
    if decide (lang = utf8 "ar") then
      let text := normalize_arabic text in
      Re.sub ar_disallowed [Re.TChr SPACE] text
    else
      Re.sub en_disallowed [Re.TChr SPACE] text in
  text.

(** [return text if text else None]; [None] is Python's [None]. *)
Definition clean_text (text : str) (lang : str) : option str :=
  let text := clean_steps text lang in
  match text with [] => None | _ => Some text end.

(** *** State, exceptions and the calls of [translate_text] *)

Inductive pyexn : Type :=
| IndexError
| EngineError (e : E).

Inductive log_entry : Type :=
| TranslationErrorEntry (e : pyexn).

(** The pipeline object: its direction, its cache, its log file and
    the engine it holds.  [engine_calls] records every call made to
    the engine, latest first. *)
Record pipeline : Type := {
  direction : Direction;
  translation_cache : gmap (list N) TranslationResult;
  log_file : list log_entry;
  engine_state : W;
  engine_calls : list (option str)
}.

Inductive outcome (A : Type) : Type :=
| Return (a : A)
| Raise (e : pyexn).
Arguments Return {A} a.
Arguments Raise {A} e.

Definition M (A : Type) : Type := pipeline -> outcome A * pipeline.

Definition ret {A} (a : A) : M A := fun self => (Return a, self).

Definition raise {A} (e : pyexn) : M A := fun self => (Raise e, self).

Definition bind {A B} (m : M A) (f : A -> M B) : M B :=
  fun self =>
    match m self with
    | (Return a, self') => f a self'
    | (Raise e, self') => (Raise e, self')
    end.

Definition try_except {A} (m : M A) (handler : pyexn -> M A) : M A :=
  fun self =>
    match m self with
    | (Return a, self') => (Return a, self')
    | (Raise e, self') => handler e self'
    end.

Notation "x <- m ;; f" := (bind m (fun x => f))
  (at level 100, m at next level, right associativity).
Notation "m ;;; f" := (bind m (fun _ => f))
  (at level 100, right associativity).

Definition get_self : M pipeline := fun self => (Return self, self).

(** The three ways the object is updated. *)
Definition logged (self : pipeline) (entry : log_entry) : pipeline :=
  {| direction := direction self;
     translation_cache := translation_cache self;
     log_file := entry :: log_file self;
     engine_state := engine_state self;
     engine_calls := engine_calls self |}.

Definition stored (self : pipeline) (text : str) (result : TranslationResult)
    : pipeline :=
  {| direction := direction self;
     translation_cache := <[text := result]> (translation_cache self);
     log_file := log_file self;
     engine_state := engine_state self;
     engine_calls := engine_calls self |}.

Definition after_engine (self : pipeline) (w : W) (x : option str) : pipeline :=
  {| direction := direction self;
     translation_cache := translation_cache self;
     log_file := log_file self;
     engine_state := w;
     engine_calls := x :: engine_calls self |}.

Definition log_step (entry : log_entry) : M unit :=
  fun self => (Return tt, logged self entry).

(** [self.translation_cache[text] = result] *)
Definition cache_store (text : str) (result : TranslationResult) : M unit :=
  fun self => (Return tt, stored self text result).

(** Lines 588 to 590: tokenize, generate, decode. *)
Definition generate (cleaned_text : option str) : M str :=
  fun self =>
    let (w, r) := engine (engine_state self) cleaned_text in
    let self' := after_engine self w cleaned_text in
    match r with
    | inl e => (Raise (EngineError e), self')
    | inr out => (Return out, self')
    end.

(** Lines 592 to 600, the two branches on [self.direction]. *)
Definition postprocess_ar_en (translated_text : str) : M str :=
  match translated_text with
  | [] => raise IndexError
  | c :: rest =>
      let translated_text := py_upper c ++ rest in
      let translated_text := Re.sub double_article [Re.TRef 1] translated_text in
      let translated_text :=
        Re.sub (punct_after_space (utf8 "?.!,;")) [Re.TRef 1] translated_text in
      ret translated_text
  end.

Definition postprocess_en_ar (translated_text : str) : str :=
  let translated_text := py_replace 0x2E 0x6D4 translated_text in
  let translated_text := py_replace 0x2C 0x60C translated_text in
  let translated_text :=
    py_replace 0x27 0xBB (py_replace QUOTE 0xAB translated_text) in
  let translated_text :=
    Re.sub (punct_after_space (utf8 "؟،؛")) [Re.TRef 1] translated_text in
  translated_text.

Definition postprocess (d : Direction) (translated_text : str) : M str :=
  match d with
  | ar_en => postprocess_ar_en translated_text
  | en_ar => ret (postprocess_en_ar translated_text)
  end.

Definition translate_text (text : str) : M TranslationResult :=
  try_except
    (self <- get_self ;;
     match translation_cache self !! text with
     | Some result => ret result
     | None =>
         let src := src_lang (direction self) in
         let cleaned_text := clean_text text src in
         translated_text <- generate cleaned_text ;;
         translated_text <- postprocess (direction self) translated_text ;;
         let result := {| original := text;
                          cleaned := cleaned_text;
                          translated := py_strip translated_text |} in
         cache_store text result ;;;
         ret result
     end)
    (fun e => log_step (TranslationErrorEntry e) ;;; raise e).

End Pipeline.

Arguments IndexError {E}.
Arguments EngineError {E} e.
Arguments Return {E A} a.
Arguments Raise {E A} e.
Arguments TranslationErrorEntry {E} e.
Arguments direction {W E} p.
Arguments translation_cache {W E} p.
Arguments log_file {W E} p.
Arguments engine_state {W E} p.
Arguments engine_calls {W E} p.
Arguments logged {W E} self entry.
Arguments stored {W E} self text result.
Arguments after_engine {W E} self w x.

(** ** Notions used in the statements *)

(** The tashkil range U+064B to U+065F. *)
Definition is_diacritic (c : char) : Prop := 0x64B <= c <= 0x65F.

(** The character before the position reached after [u] was read. *)
Definition last_of (prev : option char) (u : str) : option char :=
  match reverse u with c :: _ => Some c | [] => prev end.

(** [s] without its prefix [l], when it starts with it. *)
Fixpoint strip_prefix (l s : str) : option str :=
  match l, s with
  | [], _ => Some s
  | c :: l', d :: s' => if c =? d then strip_prefix l' s' else None
  | _ :: _, [] => None
  end.

(** The four replacements of the en-ar branch (lines 597 to 599) on
    one character. *)
Definition en_ar_char (c : char) : char :=
  if c =? 0x2E then 0x6D4
  else if c =? 0x2C then 0x60C
  else if c =? QUOTE then 0xAB
  else if c =? 0x27 then 0xBB
  else c.

(** The words of the pattern [(a|an|the)]. *)
Definition articles : list str := [utf8 "a"; utf8 "an"; utf8 "the"].

(** The number of leading characters of [s] that are in [p]. *)
Fixpoint run (p : char -> bool) (s : str) : nat :=
  match s with
  | c :: s' => if p c then S (run p s') else O
  | [] => O
  end.

(** Every maximal run of whitespace replaced by one space;
    [in_run] tells that the run the text starts in was already
    replaced. *)
Fixpoint collapse_from (in_run : bool) (s : str) : str :=
  match s with
  | [] => []
  | c :: s' =>
      if is_space c
      then (if in_run then collapse_from true s'
            else SPACE :: collapse_from true s')
      else c :: collapse_from false s'
  end.

Definition collapse : str -> str := collapse_from false.

(** The text after the first statement of [clean_text] (line 173). *)
Definition squeezed (text : str) : str :=
  py_strip (Re.sub ws_run [Re.TChr SPACE] text).

(** The only whitespace of [s] is single spaces, none of them next to
    another ([after_space]: the character before [s] is one). *)
Fixpoint spaced (after_space : bool) (s : str) : bool :=
  match s with
  | [] => true
  | c :: s' =>
      if is_space c
      then (c =? SPACE) && negb after_space && spaced true s'
      else spaced false s'
  end.

Definition starts_with_space (s : str) : bool :=
  match s with c :: _ => is_space c | [] => false end.

(** [s] has a character that is not whitespace. *)
Definition has_nonspace (s : str) : bool := existsb (fun c => negb (is_space c)) s.

(** ** Reference instances of the parameters

    Concrete library functions and engines on which the statements
    below are evaluated.  Each agrees with the Python library on the
    inputs it is used on. *)

Module Stub.

(** NFKD on text made of characters that have no decomposition
    (ASCII, the basic Arabic letters and marks): the identity. *)
Definition nfkd (s : str) : str := s.

(** [emoji.replace_emoji] on text whose only emoji are single code
    points of the Emoticons block U+1F600 to U+1F64F. *)
Definition replace_emoji (s : str) : str :=
  filter (fun c => in_range 0x1F600 0x1F64F c = false) s.

(** [\w] outside ASCII, on the Arabic block: the letters U+0620 to
    U+064A and the digits U+0660 to U+0669. *)
Definition uword (c : char) : bool :=
  in_range 0x620 0x64A c || in_range 0x660 0x669 c.

(** [str.upper] on caseless characters. *)
Definition uupper (c : char) : str := [c].

(** A call-counting engine that echoes the cleaned text and, like the
    tokenizer, raises when it is handed [None]. *)
Definition echo (calls : nat) (cleaned_text : option str)
    : nat * (unit + str) :=
  (S calls, match cleaned_text with Some s => inr s | None => inl tt end).

(** A call-counting engine that decodes every text to [out]. *)
Definition const (out : str) (calls : nat) (cleaned_text : option str)
    : nat * (unit + str) :=
  (S calls, match cleaned_text with Some _ => inr out | None => inl tt end).

(** A freshly constructed pipeline ([__init__]). *)
Definition new (d : Direction) : pipeline nat unit :=
  {| direction := d;
     translation_cache := ∅;
     log_file := [];
     engine_state := O;
     engine_calls := [] |}.

Definition clean_text : str -> str -> option str :=
  clean_text nfkd replace_emoji uword.

Definition clean_steps : str -> str -> str :=
  clean_steps nfkd replace_emoji uword.

Definition translate_text (engine : nat -> option str -> nat * (unit + str))
    : str -> M nat unit (TranslationResult) :=
  translate_text nfkd replace_emoji uword uupper nat unit engine.

End Stub.

(** ** The dataset stages and the loops over [translate_text] *)

(** The keys of [arabic_normalizer]: the letter variants it replaces. *)
Definition variants : str := [0x625; 0x623; 0x622; 0x671; 0x649; 0x629].

(** The non-whitespace characters of a text, in order. *)
Definition nonspaces (s : str) : str := filter (fun c => is_space c = false) s.

(** [str.split()]: the maximal runs of characters that are not
    whitespace; [cur] is the word being read, last character first. *)
Fixpoint split_go (cur : str) (s : str) : list (list N) :=
  match s with
  | [] => match cur with [] => [] | _ => [reverse cur] end
  | c :: s' =>
      if is_space c
      then match cur with
           | [] => split_go [] s'
           | _ => reverse cur :: split_go [] s'
           end
      else split_go (c :: cur) s'
  end.

Definition py_split (s : str) : list (list N) := split_go [] s.

Module Data.

(** A row of the Tatoeba corpus and a row with the [src] and [tgt]
    columns the stages work on. *)
Record tatoeba : Type := { ar : str; en : str }.

Record example : Type := { src : str; tgt : str }.

(** [load_data], lines 142 to 145: which side is the source. *)
Definition orient (d : Direction) (x : tatoeba) : example :=
  match d with
  | en_ar => {| src := en x; tgt := ar x |}
  | ar_en => {| src := ar x; tgt := en x |}
  end.

Definition mirror (x : example) : example := {| src := tgt x; tgt := src x |}.

(** What a stage leaves: its return value, or the process ended by
    [exit()] in the handler of the stage. *)
Inductive stage (A : Type) : Type :=
| Done (a : A)
| Exited.
Arguments Done {A} a.
Arguments Exited {A}.

(** The lines a stage writes with [log_step], first line first, with
    the numbers they are formatted from.  [WordClouds] and
    [LengthDistributions] stand for the one line the plotting helper
    writes, whether it succeeded or not. *)
Inductive message : Type :=
| CleaningStart
| WordClouds
| CleaningComplete (removed_count original_count : nat)
| RemainingSamples (cleaned_count : nat)
| CleaningError
| FilterStart
| LengthDistributions
| Filtered (before_count after_count : nat)
| Removed (removed_count before_count : nat)
| FilterError.

(** The dictionaries [clean_data] and [filter_data] return. *)
Record clean_counts : Type := {
  original_count : nat;
  cleaned_count : nat;
  clean_removed_count : nat
}.

Record filter_counts : Type := {
  before_count : nat;
  after_count : nat;
  filter_removed_count : nat
}.

(** [length_filter] of [filter_data]. *)
Definition length_filter (x : example) : bool :=
  let src_len := length (py_split (src x)) in
  let tgt_len := length (py_split (tgt x)) in
  (1 <=? src_len)%nat && (src_len <=? 128)%nat
  && ((1 <=? tgt_len)%nat && (tgt_len <=? 128)%nat).

(** [filter_data] on the train split.  The second log line divides by
    [before_count]: on an empty split that raises ZeroDivisionError,
    which the handler logs before it calls [exit()]. *)
Definition filter_data (train : list example)
    : stage (list example * filter_counts) * list message :=
  let before_count := length train in
  let dataset := filter (fun x => length_filter x = true) train in
  let after_count := length dataset in
  let removed_count := (before_count - after_count)%nat in
  match before_count with
  | O => (Exited,
          [FilterStart; LengthDistributions;
           Filtered before_count after_count; FilterError])
  | S _ => (Done (dataset,
                  {| before_count := before_count;
                     after_count := after_count;
                     filter_removed_count := removed_count |}),
            [FilterStart; LengthDistributions;
             Filtered before_count after_count;
             Removed removed_count before_count])
  end.

Section Stages.

Variable nfkd : str -> str.
Variable replace_emoji : str -> str.
Variable uword : char -> bool.

(** The [map] and the [filter] of [clean_data] on one row: both sides
    are cleaned, and the row is kept when neither is None. *)
Definition clean_example (d : Direction) (x : example) : option example :=
  match clean_text nfkd replace_emoji uword (src x) (src_lang d),
        clean_text nfkd replace_emoji uword (tgt x) (tgt_lang d) with
  | Some s, Some t => Some {| src := s; tgt := t |}
  | _, _ => None
  end.

(** [clean_data] on the train split.  The first log line after the
    cleaning divides by [original_count]; on an empty split that
    raises ZeroDivisionError and the handler calls [exit()]. *)
Definition clean_data (d : Direction) (train : list example)
    : stage (list example * clean_counts) * list message :=
  let original_count := length train in
  let dataset := omap (clean_example d) train in
  let cleaned_count := length dataset in
  let removed_count := (original_count - cleaned_count)%nat in
  match original_count with
  | O => (Exited, [CleaningStart; WordClouds; CleaningError])
  | S _ => (Done (dataset,
                  {| original_count := original_count;
                     cleaned_count := cleaned_count;
                     clean_removed_count := removed_count |}),
            [CleaningStart; WordClouds;
             CleaningComplete removed_count original_count;
             RemainingSamples cleaned_count])
  end.

(** [clean_data] and then [filter_data], as [run_pipeline] calls
    them: the data after the two stages, or the exit of one. *)
Definition clean_then_filter (d : Direction) (train : list example)
    : stage (list example) :=
  match fst (clean_data d train) with
  | Exited => Exited
  | Done (cleaned, _) =>
      match fst (filter_data cleaned) with
      | Exited => Exited
      | Done (filtered, _) => Done filtered
      end
  end.

End Stages.

End Data.

Section Loops.

Variable nfkd : str -> str.
Variable replace_emoji : str -> str.
Variable uword : char -> bool.
Variable uupper : char -> str.
Variable W : Type.
Variable E : Type.
Variable engine : W -> option str -> W * (E + str).

(** [str.lower] and [sentence_bleu] with the smoothing function of
    the source, whose scores are of a type [Score]. *)
Variable lower : str -> str.
Variable Score : Type.
Variable sentence_bleu : list (list (list N)) -> list (list N) -> Score.

(** Every entry of the cache is the result for its own key: built
    from the key, with the cleaned key, and with a stripped
    translation. *)
Definition cache_wf (self : pipeline W E) : Prop :=
  forall (k : str) (r : TranslationResult),
    translation_cache self !! k = Some r ->
    original r = k
    /\ cleaned r = clean_text nfkd replace_emoji uword k (src_lang (direction self))
    /\ py_strip (translated r) = translated r.

(** The first [num_samples] rows of the validation split
    ([select(range(min(...)))], line 646). *)
Definition eval_samples (num_samples : nat) (validation : list Data.example)
    : list Data.example :=
  take (min num_samples (length validation)) validation.

(** The loop of [evaluate_translations], lines 651 to 668, for the
    translations and the BLEU scores: every sample is translated in
    turn and scored against its reference; an exception of
    [translate_text] ends the loop and is the outcome.  (The ROUGE
    scores are collected beside the BLEU scores in the same way; the
    progress lines of every tenth sample go to the log only.) *)
Fixpoint evaluate_loop (samples : list Data.example) (self : pipeline W E)
    : outcome E (list Score) * pipeline W E :=
  match samples with
  | [] => (Return [], self)
  | sample :: rest =>
      match translate_text nfkd replace_emoji uword uupper W E engine
              (Data.src sample) self with
      | (Raise e, self') => (Raise e, self')
      | (Return translation_result, self') =>
          let translated_text := translated translation_result in
          let reference_tokens := [py_split (Data.tgt sample)] in
          let candidate_tokens := py_split translated_text in
          let bleu_score := sentence_bleu reference_tokens candidate_tokens in
          match evaluate_loop rest self' with
          | (Return bleu_scores, self'') =>
              (Return (bleu_score :: bleu_scores), self'')
          | (Raise e, self'') => (Raise e, self'')
          end
      end
  end.

(** What [interactive_translation_test] prints for a line. *)
Inductive printed : Type :=
| PrintResult (r : TranslationResult)
| PrintError (e : pyexn E).

(** How the loop of [interactive_translation_test] ends: the user
    typed exit, or [input()] found the input at its end and raised
    EOFError, which nothing catches. *)
Inductive session_end : Type :=
| TypedExit
| EndOfInput.

(** [interactive_translation_test] on the lines [input()] returns, in
    order: a line whose lower-case form is exit ends the loop; any
    other is translated, and an exception of the translation is
    printed, after which the loop goes on. *)
Fixpoint interactive_translation_test (lines : list (list N))
    (self : pipeline W E) : session_end * list printed * pipeline W E :=
  match lines with
  | [] => (EndOfInput, [], self)
  | text :: rest =>
      if decide (lower text = utf8 "exit") then (TypedExit, [], self)
      else
        match translate_text nfkd replace_emoji uword uupper W E engine
                text self with
        | (Return result, self') =>
            let '(e, out, self'') := interactive_translation_test rest self' in
            (e, PrintResult result :: out, self'')
        | (Raise e, self') =>
            let '(e', out, self'') := interactive_translation_test rest self' in
            (e', PrintError e :: out, self'')
        end
  end.

End Loops.

Arguments PrintResult {E} r.
Arguments PrintError {E} e.

(** Instances the statements on the stages and the loops are
    evaluated on. *)
Module Demo.

(** [str.lower] on text whose cased letters are ASCII. *)
Definition lower (s : str) : str :=
  map (fun c => if in_range 0x41 0x5A c then c + 32 else c) s.

(** A score that counts the candidate tokens. *)
Definition token_count (reference : list (list (list N)))
    (candidate : list (list N)) : nat := length candidate.

Definition corpus : list Data.tatoeba :=
  [ {| Data.ar := utf8 "مرحبا بك"; Data.en := utf8 "Welcome!" |};
    {| Data.ar := utf8 "   "; Data.en := utf8 "nothing" |};
    {| Data.ar := utf8 "كيف حالك؟"; Data.en := utf8 "$$$" |};
    {| Data.ar := utf8 "القط جلس"; Data.en := utf8 "The  cat sat." |} ].

Definition clean_data : Direction -> list Data.example
    -> Data.stage (list Data.example * Data.clean_counts) * list Data.message :=
  Data.clean_data Stub.nfkd Stub.replace_emoji Stub.uword.

Definition clean_then_filter : Direction -> list Data.example
    -> Data.stage (list Data.example) :=
  Data.clean_then_filter Stub.nfkd Stub.replace_emoji Stub.uword.

Definition evaluate_loop (engine : nat -> option str -> nat * (unit + str))
    : list Data.example -> pipeline nat unit
      -> outcome unit (list nat) * pipeline nat unit :=
  evaluate_loop Stub.nfkd Stub.replace_emoji Stub.uword Stub.uupper
    nat unit engine nat token_count.

Definition interactive_translation_test
    (engine : nat -> option str -> nat * (unit + str))
    : list (list N) -> pipeline nat unit
      -> session_end * list (printed unit) * pipeline nat unit :=
  interactive_translation_test Stub.nfkd Stub.replace_emoji Stub.uword
    Stub.uupper nat unit engine lower.

End Demo.

(** ** Substitution with a one-character pattern *)

Section SubSet.

Variable p : char -> bool.
Variable t : list Re.titem.

Lemma match_at_set (prev : option char) (c : char) (s : str) :
  Re.match_at (Re.Set_ p) prev (c :: s)
  = if p c then Some (1%nat, []) else None.
Proof.
  unfold Re.match_at; cbn [Re.rmatch].
  destruct (p c); [|reflexivity].
  unfold Re.accept. f_equal. f_equal. cbn [length]. lia.
Qed.

Lemma sub_go_set (prev : option char) (s : str) :
  Re.sub_go (Re.Set_ p) t 0 prev s
  = flat_map (fun c => if p c then Re.expand t [] else [c]) s.
Proof.
  revert prev. induction s as [|c s IH]; intros prev; [reflexivity|].
  cbn [Re.sub_go flat_map]. rewrite match_at_set.
  destruct (p c); rewrite IH; reflexivity.
Qed.

(** [re.sub] with a bracket expression replaces each character of the
    set by the template and keeps the others. *)
Lemma sub_set (s : str) :
  Re.sub (Re.Set_ p) t s
  = flat_map (fun c => if p c then Re.expand t [] else [c]) s.
Proof. apply sub_go_set. Qed.

End SubSet.

Lemma sub_set_delete (p : char -> bool) (s : str) :
  Re.sub (Re.Set_ p) [] s = filter (fun c => p c = false) s.
Proof.
  rewrite sub_set. induction s as [|c s IH]; [reflexivity|].
  cbn [flat_map]. rewrite IH, filter_cons.
  destruct (p c) eqn:Hc; cbn [Re.expand flat_map app].
  - rewrite decide_False by discriminate. reflexivity.
  - rewrite decide_True by reflexivity. reflexivity.
Qed.

Lemma sub_set_chr (p : char -> bool) (b : char) (s : str) :
  Re.sub (Re.Set_ p) [Re.TChr b] s = map (fun c => if p c then b else c) s.
Proof.
  rewrite sub_set. induction s as [|c s IH]; [reflexivity|].
  cbn [flat_map map]. rewrite IH. destruct (p c); reflexivity.
Qed.

(** ** [normalize_arabic] *)

Lemma in_range_spec (lo hi c : char) :
  in_range lo hi c = true <-> lo <= c <= hi.
Proof. unfold in_range. rewrite andb_true_iff, !N.leb_le. reflexivity. Qed.

Lemma in_range_false (lo hi c : char) :
  in_range lo hi c = false <-> ~ (lo <= c <= hi).
Proof. rewrite <- in_range_spec. destruct (in_range lo hi c); intuition congruence. Qed.

(** C8: the result of normalize_arabic is what remains of the
    decomposed, table-mapped text once every character of U+064B to
    U+065F is deleted, so it contains no character of that range. *)
Theorem normalize_arabic_no_diacritics (nfkd : str -> str) (text : str) :
  normalize_arabic nfkd text
  = filter (fun c => in_range 0x64B 0x65F c = false)
      (map (fun c => default c (arabic_normalizer !! c)) (nfkd text))
  /\ Forall (fun c => ~ is_diacritic c) (normalize_arabic nfkd text).
Proof.
  unfold normalize_arabic, diacritics. rewrite sub_set_delete. split; [reflexivity|].
  apply Forall_forall. intros c Hc.
  apply list_elem_of_filter in Hc as [Hc _].
  apply in_range_false in Hc. exact Hc.
Qed.

(** ** [clean_text] *)

Section Clean.

Variable nfkd : str -> str.
Variable replace_emoji : str -> str.
Variable uword : char -> bool.

Local Abbreviation clean := (clean_text nfkd replace_emoji uword).
Local Abbreviation steps := (clean_steps nfkd replace_emoji uword).

Lemma clean_text_None (text lang : str) :
  clean text lang = None <-> steps text lang = [].
Proof.
  unfold clean_text. destruct (clean_steps _ _ _ _ _); split; congruence.
Qed.

Lemma clean_text_Some (text lang s : str) :
  clean text lang = Some s <-> steps text lang = s /\ s <> [].
Proof.
  unfold clean_text. destruct (clean_steps _ _ _ _ _); split.
  - discriminate.
  - intros [<- H]. congruence.
  - intros [= <-]. split; [reflexivity|discriminate].
  - intros [<- _]. reflexivity.
Qed.

(** C7: whitespace alone, for Arabic, and three U+1F600 emoji, for
    English, are both rejected with None, given that the libraries
    leave the empty string empty and that replace_emoji deletes the
    three emoji. *)
Theorem clean_text_rejects
    (Hnfkd : nfkd [] = [])
    (Hemoji_nil : replace_emoji [] = [])
    (Hemoji : replace_emoji (utf8 "😀😀😀") = []) :
  clean (utf8 "   ") (utf8 "ar") = None
  /\ clean (utf8 "😀😀😀") (utf8 "en") = None.
Proof.
  split; apply clean_text_None; unfold clean_steps.
  - replace (py_strip (Re.sub ws_run [Re.TChr SPACE] (utf8 "   "))) with (@nil N)
      by (vm_compute; reflexivity).
    rewrite Hemoji_nil. rewrite decide_True by reflexivity.
    unfold normalize_arabic. rewrite Hnfkd. reflexivity.
  - replace (py_strip (Re.sub ws_run [Re.TChr SPACE] (utf8 "😀😀😀")))
      with (utf8 "😀😀😀") by (vm_compute; reflexivity).
    rewrite Hemoji. rewrite decide_False by (vm_compute; congruence).
    reflexivity.
Qed.

(** C10: clean_text returns None exactly when the text it ends with is
    the empty string, and "$$$" for English, which replace_emoji leaves
    alone, comes back as three spaces, not trimmed and not None. *)
Theorem clean_text_none_iff_empty
    (Hemoji : replace_emoji (utf8 "$$$") = utf8 "$$$") :
  (forall text lang : str,
     clean text lang = None <-> steps text lang = [])
  /\ (forall text lang : str,
        steps text lang <> [] ->
        clean text lang = Some (steps text lang))
  /\ clean (utf8 "$$$") (utf8 "en") = Some (utf8 "   ")
  /\ Forall (fun c => is_space c = true) (utf8 "   ")
  /\ py_strip (utf8 "   ") = [].
Proof.
  split; [apply clean_text_None|].
  split; [intros text lang H; apply clean_text_Some; auto|].
  split; [|split; [repeat constructor|reflexivity]].
  apply clean_text_Some. split; [|discriminate].
  unfold clean_steps.
  replace (py_strip (Re.sub ws_run [Re.TChr SPACE] (utf8 "$$$")))
    with (utf8 "$$$") by (vm_compute; reflexivity).
  rewrite Hemoji. rewrite decide_False by (vm_compute; congruence).
  unfold en_disallowed. rewrite sub_set_chr. reflexivity.
Qed.

End Clean.

Lemma clean_text_rejects_witness :
  Stub.clean_text (utf8 "   ") (utf8 "ar") = None
  /\ Stub.clean_text (utf8 "😀😀😀") (utf8 "en") = None.
Proof.
  apply (clean_text_rejects Stub.nfkd Stub.replace_emoji Stub.uword);
    reflexivity.
Defined.

Lemma clean_text_none_iff_empty_witness :
  Stub.clean_text (utf8 "$$$") (utf8 "en") = Some (utf8 "   ").
Proof.
  apply (clean_text_none_iff_empty Stub.nfkd Stub.replace_emoji Stub.uword).
  reflexivity.
Defined.

(** ** [translate_text]: cache and failure *)

Section Translate.

Variable nfkd : str -> str.
Variable replace_emoji : str -> str.
Variable uword : char -> bool.
Variable uupper : char -> str.
Variable W : Type.
Variable E : Type.
Variable engine : W -> option str -> W * (E + str).

Local Abbreviation clean := (clean_text nfkd replace_emoji uword).
Local Abbreviation translate :=
  (translate_text nfkd replace_emoji uword uupper W E engine).
Local Abbreviation post := (postprocess uword uupper W E).

Lemma translate_hit (text : str) (self : pipeline W E) (r : TranslationResult) :
  translation_cache self !! text = Some r ->
  translate text self = (Return r, self).
Proof.
  intros H. unfold translate_text, try_except, bind, get_self.
  rewrite H. reflexivity.
Qed.

(** Post-processing neither reads nor writes the pipeline. *)
Lemma postprocess_pure (d : Direction) (raw : str) (self : pipeline W E) :
  snd (post d raw self) = self.
Proof.
  destruct d; [destruct raw|]; reflexivity.
Qed.

(** The miss path, engine failure. *)
Lemma translate_miss_engine_raises (text : str) (self : pipeline W E)
    (w : W) (e : E) :
  translation_cache self !! text = None ->
  engine (engine_state self) (clean text (src_lang (direction self))) = (w, inl e) ->
  translate text self
  = (Raise (EngineError e),
     logged (after_engine self w (clean text (src_lang (direction self))))
            (TranslationErrorEntry (EngineError e))).
Proof.
  intros Hc He. unfold translate_text, try_except, bind, get_self, generate.
  rewrite Hc. cbn. rewrite He. reflexivity.
Qed.

(** The miss path, engine success: the outcome is decided by
    post-processing. *)
Lemma translate_miss_engine_returns (text : str) (self : pipeline W E)
    (w : W) (raw : str) :
  translation_cache self !! text = None ->
  engine (engine_state self) (clean text (src_lang (direction self))) = (w, inr raw) ->
  let cleaned_text := clean text (src_lang (direction self)) in
  let self1 := after_engine self w cleaned_text in
  translate text self
  = match fst (post (direction self) raw self1) with
    | Return out =>
        let result := {| original := text; cleaned := cleaned_text;
                         translated := py_strip out |} in
        (Return result, stored self1 text result)
    | Raise e => (Raise e, logged self1 (TranslationErrorEntry e))
    end.
Proof.
  intros Hc He. cbv zeta.
  unfold translate_text, try_except, bind, get_self, generate.
  rewrite Hc. cbn. rewrite He.
  set (self1 := after_engine self w _).
  pose proof (postprocess_pure (direction self) raw self1) as Hp.
  destruct (post (direction self) raw self1) as [[out|e] s2]; cbn in Hp |- *;
    subst s2; reflexivity.
Qed.

(** The three paths of a call whose result is described by [H]: the
    hit, the miss with a failing engine, the miss with an engine
    output. *)
Local Ltac by_path text self H :=
  let Hc := fresh "Hc" in
  let He := fresh "He" in
  destruct (translation_cache self !! text) as [?|] eqn:Hc;
  [ rewrite (translate_hit _ _ _ Hc) in H
  | destruct (engine (engine_state self)
                (clean text (src_lang (direction self))))
      as [? [?|?]] eqn:He;
    [ rewrite (translate_miss_engine_raises _ _ _ _ Hc He) in H
    | rewrite (translate_miss_engine_returns _ _ _ _ Hc He) in H;
      cbv zeta in H ] ].

(** C1: when a call of translate_text on s returns a result, that
    result is stored under s, and the next call on the same pipeline
    returns the same result and leaves the whole pipeline, the record
    of engine calls included, as it was: nothing is computed again. *)
Theorem translate_text_cached (s : str) (self self1 : pipeline W E)
    (r : TranslationResult) :
  translate s self = (Return r, self1) ->
  translation_cache self1 !! s = Some r
  /\ translate s self1 = (Return r, self1)
  /\ engine_calls (snd (translate s self1)) = engine_calls self1.
Proof.
  intros H.
  assert (Hs : translation_cache self1 !! s = Some r).
  { by_path s self H.
    - congruence.
    - discriminate.
    - destruct (fst (post _ _ _)); [|discriminate].
      injection H as <- <-. apply lookup_insert_eq. }
  split; [exact Hs|]. rewrite (translate_hit _ _ _ Hs). split; reflexivity.
Qed.

(** C6: when translate_text raises, the cache of the pipeline it
    leaves is the cache it found. *)
Theorem translate_text_raise_keeps_cache (text : str)
    (self self' : pipeline W E) (e : pyexn E) :
  translate text self = (Raise e, self') ->
  translation_cache self' = translation_cache self.
Proof.
  intros H. by_path text self H.
  - discriminate.
  - injection H as _ <-. reflexivity.
  - destruct (fst (post _ _ _)); [discriminate|].
    injection H as _ <-. reflexivity.
Qed.

(** C5 (amended): a text that is not cached and that cleaning rejects
    is not stopped before the engine: None is handed to the engine,
    which is called once; when the engine raises on it, translate_text
    raises the engine's exception after logging it and the cache is
    unchanged. *)
Theorem translate_text_rejected_reaches_engine (text : str)
    (self : pipeline W E) :
  translation_cache self !! text = None ->
  clean text (src_lang (direction self)) = None ->
  engine_calls (snd (translate text self)) = None :: engine_calls self
  /\ forall (w : W) (e : E),
       engine (engine_state self) None = (w, inl e) ->
       translate text self
       = (Raise (EngineError e),
          logged (after_engine self w None)
                 (TranslationErrorEntry (EngineError e))).
Proof.
  intros Hc Hn. split.
  - destruct (engine (engine_state self) (clean text (src_lang (direction self))))
      as [w [e0|raw]] eqn:He.
    + rewrite (translate_miss_engine_raises _ _ _ _ Hc He), Hn. reflexivity.
    + rewrite (translate_miss_engine_returns _ _ _ _ Hc He), Hn.
      cbv zeta. destruct (fst (post _ raw _)); reflexivity.
  - intros w e He. rewrite <- Hn in He.
    rewrite (translate_miss_engine_raises _ _ _ _ Hc He), Hn. reflexivity.
Qed.

(** In direction ar-en, when the engine returns the empty string for
    a text that is not cached, taking the first character raises
    IndexError, and the cache is unchanged. *)
Lemma translate_text_ar_en_empty_raises (text : str) (self : pipeline W E)
    (w : W) :
  direction self = ar_en ->
  translation_cache self !! text = None ->
  engine (engine_state self) (clean text (src_lang (direction self))) = (w, inr []) ->
  fst (translate text self) = Raise IndexError
  /\ translation_cache (snd (translate text self)) = translation_cache self.
Proof.
  intros Hd Hc He.
  rewrite (translate_miss_engine_returns _ _ _ _ Hc He). cbv zeta.
  rewrite Hd. cbn. split; reflexivity.
Qed.

End Translate.

(** ** Greedy runs: [p+] *)

Section PlusSet.

Variable p : char -> bool.

Lemma last_of_cons (prev : option char) (c : char) (u : str) :
  last_of prev (c :: u) = last_of (Some c) u.
Proof.
  unfold last_of. rewrite reverse_cons.
  destruct (reverse u) as [|d r]; reflexivity.
Qed.

Lemma run_app (ws s : str) :
  Forall (fun c => p c = true) ws ->
  run p (ws ++ s) = (length ws + run p s)%nat.
Proof.
  induction 1 as [|c ws Hc _ IH]; [reflexivity|].
  cbn. rewrite Hc, IH. reflexivity.
Qed.

Lemma run_split (s : str) :
  Forall (fun c => p c = true) (take (run p s) s)
  /\ run p (drop (run p s) s) = O.
Proof.
  induction s as [|c s [IH1 IH2]]; [split; [constructor|reflexivity]|].
  cbn. destruct (p c) eqn:Hc; cbn.
  - split; [constructor; assumption|assumption].
  - split; [constructor|]. cbn. rewrite Hc. reflexivity.
Qed.

Lemma plus_loop_S (body : option char -> str -> Re.captures -> Re.kont -> Re.result)
    (k : Re.kont) (n : nat) (prev : option char) (s : str) (cs : Re.captures) :
  Re.plus_loop body k (S n) prev s cs
  = body prev s cs (fun prev' s' cs' =>
      if (length s' <? length s)%nat
      then Re.orelse (Re.plus_loop body k n prev' s' cs') (k prev' s' cs')
      else k prev' s' cs').
Proof. reflexivity. Qed.

Lemma rmatch_set_cons (prev : option char) (c : char) (s : str)
    (cs : Re.captures) (k : Re.kont) :
  Re.rmatch (Re.Set_ p) prev (c :: s) cs k
  = if p c then k (Some c) s cs else None.
Proof. reflexivity. Qed.

Lemma rmatch_set_nil (prev : option char) (cs : Re.captures) (k : Re.kont) :
  Re.rmatch (Re.Set_ p) prev [] cs k = None.
Proof. reflexivity. Qed.

Lemma ltb_length_cons (c : char) (s : str) :
  (length s <? length (c :: s))%nat = true.
Proof. apply Nat.ltb_lt. cbn. lia. Qed.

Lemma plus_loop_no_run (k : Re.kont) (n : nat) (prev : option char) (s : str)
    (cs : Re.captures) :
  run p s = O ->
  Re.plus_loop (Re.rmatch (Re.Set_ p)) k n prev s cs = None.
Proof.
  intros Hrun. destruct n; [reflexivity|]. rewrite plus_loop_S.
  destruct s as [|e s]; [reflexivity|]. rewrite rmatch_set_cons.
  cbn in Hrun. destruct (p e); [discriminate|reflexivity].
Qed.

(** The loop consumes the whole run when the rest of the pattern then
    matches. *)
Lemma plus_loop_greedy (k : Re.kont) (res : str * Re.captures) (ws : str) :
  forall (n : nat) (prev : option char) (s : str) (cs : Re.captures),
    ws <> [] ->
    Forall (fun c => p c = true) ws ->
    run p s = O ->
    (length ws <= n)%nat ->
    k (last_of prev ws) s cs = Some res ->
    Re.plus_loop (Re.rmatch (Re.Set_ p)) k n prev (ws ++ s) cs = Some res.
Proof.
  induction ws as [|c ws IH]; intros n prev s cs Hne Hall Hrun Hn Hk;
    [congruence|].
  destruct n as [|n]; [cbn in Hn; lia|].
  inversion Hall as [|? ? Hc Hws]; subst.
  rewrite plus_loop_S. cbn [app]. rewrite rmatch_set_cons, Hc, ltb_length_cons.
  rewrite last_of_cons in Hk.
  destruct ws as [|d ws].
  - cbn [app]. cbn in Hk. rewrite plus_loop_no_run by assumption. exact Hk.
  - rewrite (IH n (Some c) s cs); [reflexivity|discriminate|assumption|assumption| |assumption].
    cbn in Hn |- *. lia.
Qed.

(** Whatever the loop matched is a non-empty run, followed by a match
    of the rest of the pattern. *)
Lemma plus_loop_sound (k : Re.kont) (res : str * Re.captures) :
  forall (n : nat) (prev : option char) (s : str) (cs : Re.captures),
    Re.plus_loop (Re.rmatch (Re.Set_ p)) k n prev s cs = Some res ->
    exists ws s', s = ws ++ s' /\ ws <> []
      /\ Forall (fun c => p c = true) ws
      /\ k (last_of prev ws) s' cs = Some res.
Proof.
  induction n as [|n IH]; intros prev s cs H; [discriminate|].
  rewrite plus_loop_S in H.
  destruct s as [|c s]; [discriminate|].
  rewrite rmatch_set_cons in H.
  destruct (p c) eqn:Hc; [|discriminate].
  rewrite ltb_length_cons in H.
  destruct (Re.plus_loop (Re.rmatch (Re.Set_ p)) k n (Some c) s cs) as [res'|] eqn:Hl.
  - cbn in H. injection H as ->. apply IH in Hl as (ws & s' & -> & Hne & Hall & Hk).
    exists (c :: ws), s'. rewrite last_of_cons. repeat split; try assumption.
    + discriminate.
    + constructor; assumption.
  - cbn in H. exists [c], s. repeat split; try assumption.
    + discriminate.
    + repeat constructor. assumption.
Qed.

Lemma match_at_plus (prev : option char) (s : str) :
  Re.match_at (Re.Plus (Re.Set_ p)) prev s
  = match run p s with O => None | S j => Some (S j, []) end.
Proof.
  unfold Re.match_at. cbn [Re.rmatch].
  destruct (run p s) as [|j] eqn:Hr.
  - destruct s as [|c s]; [reflexivity|]. cbn in Hr |- *.
    destruct (p c); [discriminate|reflexivity].
  - destruct (run_split s) as [Hall Hrest]. rewrite Hr in Hall, Hrest.
    assert (Hlen : (S j <= length s)%nat).
    { clear -Hr. revert j Hr. induction s as [|c s IH]; intros j Hr; [discriminate|].
      cbn in Hr |- *. destruct (p c); [|discriminate]. injection Hr as <-.
      destruct (run p s) eqn:E; [lia|]. specialize (IH _ eq_refl). lia. }
    rewrite <- (take_drop (S j) s) at 2.
    rewrite (plus_loop_greedy Re.accept (drop (S j) s, []));
      try assumption; try reflexivity.
    + rewrite length_drop. do 2 f_equal. lia.
    + destruct s; [cbn in Hlen; lia|discriminate].
    + rewrite length_take. lia.
Qed.

End PlusSet.

(** [re.sub(r'\s+', ' ', text)] replaces every maximal run of
    whitespace by one space. *)
Lemma sub_go_ws_run (s : str) :
  forall prev : option char,
    Re.sub_go ws_run [Re.TChr SPACE] 0 prev s = collapse_from false s
    /\ Re.sub_go ws_run [Re.TChr SPACE] (run is_space s) prev s
       = collapse_from true s.
Proof.
  induction s as [|c s IH]; intros prev; [split; reflexivity|].
  cbn [Re.sub_go run collapse_from]. unfold ws_run at 1 3.
  rewrite match_at_plus. cbn [run].
  destruct (is_space c) eqn:Hc.
  - fold ws_run. rewrite (proj2 (IH (Some c))). split; reflexivity.
  - unfold ws_run. rewrite match_at_plus. cbn [run]. rewrite Hc.
    fold ws_run. rewrite (proj1 (IH (Some c))). split; reflexivity.
Qed.

Lemma sub_ws_run (s : str) :
  Re.sub ws_run [Re.TChr SPACE] s = collapse s.
Proof. apply sub_go_ws_run. Qed.

(** ** [strip] and single-spaced text *)

Lemma lstrip_suffix (s : str) :
  exists l, s = l ++ py_lstrip s /\ Forall (fun c => is_space c = true) l.
Proof.
  induction s as [|c s (l & Hl & Hall)]; [exists []; split; [reflexivity|constructor]|].
  cbn. destruct (is_space c) eqn:Hc.
  - exists (c :: l). split; [cbn; congruence|constructor; assumption].
  - exists []. split; [reflexivity|constructor].
Qed.

Lemma lstrip_no_lead (s : str) : starts_with_space (py_lstrip s) = false.
Proof.
  induction s as [|c s IH]; [reflexivity|].
  cbn. destruct (is_space c) eqn:Hc; [exact IH|]. cbn. exact Hc.
Qed.

Lemma lstrip_id (s : str) : starts_with_space s = false -> py_lstrip s = s.
Proof. destruct s as [|c s]; [reflexivity|]. cbn. intros ->. reflexivity. Qed.

Lemma rstrip_prefix (s : str) :
  exists r, s = py_rstrip s ++ r /\ Forall (fun c => is_space c = true) r.
Proof.
  unfold py_rstrip. destruct (lstrip_suffix (reverse s)) as (l & Hl & Hall).
  exists (reverse l). split.
  - rewrite <- reverse_app, <- Hl, reverse_involutive. reflexivity.
  - apply Forall_reverse. exact Hall.
Qed.

Lemma rstrip_id (s : str) :
  starts_with_space (reverse s) = false -> py_rstrip s = s.
Proof.
  intros H. unfold py_rstrip. rewrite lstrip_id by exact H.
  apply reverse_involutive.
Qed.

Lemma strip_infix (s : str) :
  exists l r, s = l ++ py_strip s ++ r
    /\ Forall (fun c => is_space c = true) l
    /\ Forall (fun c => is_space c = true) r.
Proof.
  destruct (lstrip_suffix s) as (l & Hl & Hall).
  destruct (rstrip_prefix (py_lstrip s)) as (r & Hr & Halr).
  exists l, r. unfold py_strip. rewrite <- Hr. auto.
Qed.

Lemma strip_no_lead (s : str) : starts_with_space (py_strip s) = false.
Proof.
  unfold py_strip. destruct (rstrip_prefix (py_lstrip s)) as (r & Hr & _).
  pose proof (lstrip_no_lead s) as H. rewrite Hr in H.
  destruct (py_rstrip (py_lstrip s)); [reflexivity|exact H].
Qed.

Lemma strip_no_trail (s : str) : starts_with_space (reverse (py_strip s)) = false.
Proof.
  unfold py_strip, py_rstrip. rewrite reverse_involutive. apply lstrip_no_lead.
Qed.

Lemma strip_fixed (s : str) :
  starts_with_space s = false -> starts_with_space (reverse s) = false ->
  py_strip s = s.
Proof.
  intros H1 H2. unfold py_strip. rewrite (lstrip_id s H1). apply rstrip_id, H2.
Qed.

(** [strip] changes nothing in text already stripped. *)
Lemma strip_idempotent (s : str) : py_strip (py_strip s) = py_strip s.
Proof. apply strip_fixed; [apply strip_no_lead|apply strip_no_trail]. Qed.

Lemma spaced_weaken (b : bool) (s : str) : spaced b s = true -> spaced false s = true.
Proof.
  destruct s as [|c s]; [reflexivity|]. cbn.
  destruct (is_space c); [|auto]. destruct b; cbn; [|auto].
  rewrite andb_false_r. discriminate.
Qed.

Lemma spaced_suffix (l s : str) (b : bool) :
  spaced b (l ++ s) = true -> spaced false s = true.
Proof.
  revert b. induction l as [|c l IH]; intros b H; [exact (spaced_weaken _ _ H)|].
  cbn in H. destruct (is_space c).
  - apply andb_true_iff in H as [_ H]. exact (IH _ H).
  - exact (IH _ H).
Qed.

Lemma spaced_prefix (s r : str) (b : bool) :
  spaced b (s ++ r) = true -> spaced b s = true.
Proof.
  revert b. induction s as [|c s IH]; intros b H; [reflexivity|].
  cbn in H |- *. destruct (is_space c).
  - apply andb_true_iff in H as [H1 H2]. rewrite H1. exact (IH _ H2).
  - exact (IH _ H).
Qed.

Lemma collapse_spaced (b : bool) (s : str) : spaced b (collapse_from b s) = true.
Proof.
  revert b. induction s as [|c s IH]; intros b; [reflexivity|].
  cbn. destruct (is_space c) eqn:Hc.
  - destruct b; [apply IH|]. cbn. apply IH.
  - cbn. rewrite Hc. apply IH.
Qed.

Lemma collapse_fixed (b : bool) (s : str) :
  spaced b s = true -> collapse_from b s = s.
Proof.
  revert b. induction s as [|c s IH]; intros b H; [reflexivity|].
  cbn in H |- *. destruct (is_space c) eqn:Hc.
  - apply andb_true_iff in H as [H1 H2]. apply andb_true_iff in H1 as [H1 Hb].
    apply N.eqb_eq in H1. subst c. destruct b; [discriminate|].
    f_equal. exact (IH _ H2).
  - f_equal. exact (IH _ H).
Qed.

(** Collapsing and stripping a second time changes nothing. *)
Lemma strip_collapse_idempotent (s : str) :
  py_strip (collapse (py_strip (collapse s))) = py_strip (collapse s).
Proof.
  assert (Hsp : spaced false (py_strip (collapse s)) = true).
  { destruct (strip_infix (collapse s)) as (l & r & Heq & _ & _).
    pose proof (collapse_spaced false s) as H. fold collapse in H.
    rewrite Heq in H. apply spaced_suffix in H. apply spaced_prefix in H. exact H. }
  unfold collapse at 1. rewrite (collapse_fixed _ _ Hsp). apply strip_idempotent.
Qed.

Lemma collapse_Forall (P : char -> Prop) (b : bool) (s : str) :
  P SPACE -> Forall P s -> Forall P (collapse_from b s).
Proof.
  intros Hsp Hall. revert b. induction Hall as [|c s Hc _ IH]; intros b; [constructor|].
  cbn. destruct (is_space c); [destruct b|]; auto.
Qed.

Lemma strip_Forall (P : char -> Prop) (s : str) :
  Forall P s -> Forall P (py_strip s).
Proof.
  intros H. destruct (strip_infix s) as (l & r & Heq & _ & _).
  rewrite Heq in H. apply Forall_app in H as [_ H]. apply Forall_app in H as [H _].
  exact H.
Qed.

(** ** Cleaning twice *)

Section Idempotence.

Variable nfkd : str -> str.
Variable replace_emoji : str -> str.
Variable uword : char -> bool.

Local Abbreviation clean := (clean_text nfkd replace_emoji uword).
Local Abbreviation steps := (clean_steps nfkd replace_emoji uword).

Lemma squeezed_collapse (text : str) : squeezed text = py_strip (collapse text).
Proof. unfold squeezed. rewrite sub_ws_run. reflexivity. Qed.

Lemma squeezed_idempotent (text : str) : squeezed (squeezed text) = squeezed text.
Proof. rewrite !squeezed_collapse. apply strip_collapse_idempotent. Qed.

Lemma allowed_space (lang : str) : allowed uword lang SPACE = true.
Proof. unfold allowed. destruct (decide _); reflexivity. Qed.

Lemma squeezed_allowed (lang text : str) :
  Forall (fun c => allowed uword lang c = true) text ->
  Forall (fun c => allowed uword lang c = true) (squeezed text).
Proof.
  intros H. rewrite squeezed_collapse. apply strip_Forall, collapse_Forall.
  - apply allowed_space.
  - exact H.
Qed.

Lemma sub_allowed_fixed (a : char -> bool) (y : str) :
  Forall (fun c => a c = true) y ->
  Re.sub (Re.Set_ (fun c => negb (a c))) [Re.TChr SPACE] y = y.
Proof.
  intros H. rewrite sub_set_chr. induction H as [|c y Hc _ IH]; [reflexivity|].
  cbn. rewrite Hc, IH. reflexivity.
Qed.

(** The value of [clean_steps] on a text whose squeezed form the
    later steps leave alone. *)
Lemma clean_steps_stable (x lang : str) :
  Forall (fun c => allowed uword lang c = true) (squeezed x) ->
  replace_emoji (squeezed x) = squeezed x ->
  (lang = utf8 "ar" -> normalize_arabic nfkd (squeezed x) = squeezed x) ->
  steps x lang = squeezed x.
Proof.
  intros Hall Hem Hnorm. unfold clean_steps. fold (squeezed x). rewrite Hem.
  unfold allowed in Hall. destruct (decide (lang = utf8 "ar")) as [Har|Har].
  - rewrite (Hnorm Har). apply sub_allowed_fixed, Hall.
  - apply sub_allowed_fixed, Hall.
Qed.

(** Cleaning a text of allowed characters whose squeezed form the
    later steps leave alone gives that form, and cleaning it again
    gives it again. *)
Lemma clean_text_stable_input (x lang y : str) :
  Forall (fun c => allowed uword lang c = true) x ->
  replace_emoji (squeezed x) = squeezed x ->
  (lang = utf8 "ar" -> normalize_arabic nfkd (squeezed x) = squeezed x) ->
  clean x lang = Some y ->
  y = squeezed x /\ clean y lang = Some y.
Proof.
  intros Hall Hem Hnorm Hy.
  apply clean_text_Some in Hy as [Hy Hne].
  rewrite clean_steps_stable in Hy; try assumption;
    [|apply squeezed_allowed, Hall].
  subst y. split; [reflexivity|].
  apply clean_text_Some. split; [|exact Hne].
  rewrite <- (squeezed_idempotent x) at 2.
  apply clean_steps_stable; rewrite squeezed_idempotent; try assumption.
  apply squeezed_allowed, Hall.
Qed.

(** What the cleaning ends with has allowed characters only. *)
Lemma clean_steps_allowed (x lang : str) :
  Forall (fun c => allowed uword lang c = true) (steps x lang).
Proof.
  unfold clean_steps, allowed, ar_disallowed, en_disallowed.
  destruct (decide (lang = utf8 "ar")); rewrite sub_set_chr;
    apply Forall_forall; intros c Hc;
    apply list_elem_of_fmap in Hc as (c' & -> & _).
  - destruct (allowed_ar uword c') eqn:Ea; cbn; [exact Ea|reflexivity].
  - destruct (allowed_en uword c') eqn:Ea; cbn; [exact Ea|reflexivity].
Qed.

(** C9 (amended): let clean_text return a text y for x, whatever x
    is, and let the emoji removal and, for Arabic, normalize_arabic
    leave unchanged what the first statement of clean_text makes of y
    (its whitespace runs collapsed to one space each, then stripped).
    Then clean_text on y returns that collapsed and stripped form of
    y, or None when it is empty; so clean_text on y returns y again
    exactly when y is its own collapsed and stripped form, and then
    the two conditions are conditions on y itself. *)
Theorem clean_text_fixed_point (x lang y : str) :
  clean x lang = Some y ->
  replace_emoji (squeezed y) = squeezed y ->
  (lang = utf8 "ar" -> normalize_arabic nfkd (squeezed y) = squeezed y) ->
  clean y lang = (if decide (squeezed y = []) then None else Some (squeezed y))
  /\ (clean y lang = Some y <-> squeezed y = y).
Proof.
  intros Hy Hem Hnorm.
  apply clean_text_Some in Hy as [Hy Hne].
  pose proof (clean_steps_allowed x lang) as Hall. rewrite Hy in Hall.
  assert (Hst : steps y lang = squeezed y).
  { apply clean_steps_stable; try assumption. apply squeezed_allowed, Hall. }
  split.
  - destruct (decide (squeezed y = [])) as [Hnil|Hnil].
    + apply clean_text_None. rewrite Hst. exact Hnil.
    + apply clean_text_Some. split; assumption.
  - rewrite clean_text_Some, Hst. split.
    + intros [Heq _]. exact Heq.
    + intros Heq. split; assumption.
Qed.

End Idempotence.

Lemma clean_text_fixed_point_witness :
  Stub.clean_text (utf8 "مدرسه جميله") (utf8 "ar")
  = (if decide (squeezed (utf8 "مدرسه جميله") = []) then None
     else Some (squeezed (utf8 "مدرسه جميله")))
  /\ (Stub.clean_text (utf8 "مدرسه جميله") (utf8 "ar") = Some (utf8 "مدرسه جميله")
      <-> squeezed (utf8 "مدرسه جميله") = utf8 "مدرسه جميله").
Proof.
  apply (clean_text_fixed_point Stub.nfkd Stub.replace_emoji Stub.uword
           (utf8 "  مدرسة   جميلة ") (utf8 "ar") (utf8 "مدرسه جميله")).
  - vm_compute. reflexivity.
  - vm_compute. reflexivity.
  - intros _. vm_compute. reflexivity.
Defined.

(** C9 fails as stated: "a", space, fathatan (U+064B), space, "b" has
    allowed characters only; cleaning it for Arabic deletes the mark
    and leaves two spaces, which a second cleaning collapses. *)
Lemma clean_text_not_idempotent :
  Forall (fun c => allowed Stub.uword (utf8 "ar") c = true) (utf8 "a ً b")
  /\ Stub.clean_text (utf8 "a ً b") (utf8 "ar") = Some (utf8 "a  b")
  /\ Stub.clean_text (utf8 "a  b") (utf8 "ar") = Some (utf8 "a b")
  /\ Stub.clean_text (utf8 "a  b") (utf8 "ar") <> Some (utf8 "a  b").
Proof.
  split; [vm_compute; repeat constructor|].
  split; [vm_compute; reflexivity|].
  split; [vm_compute; reflexivity|].
  vm_compute. discriminate.
Qed.

(** With a character that is not allowed the same happens for
    English: "a$" is cleaned to "a " and that to "a". *)
Lemma clean_text_trailing_space :
  Stub.clean_text (utf8 "a$") (utf8 "en") = Some (utf8 "a ")
  /\ Stub.clean_text (utf8 "a ") (utf8 "en") = Some (utf8 "a").
Proof. split; vm_compute; reflexivity. Qed.

(** ** Substitution, match by match *)

Section SubRel.

Variable r : Re.regex.
Variable t : list Re.titem.

Lemma last_of_nil (prev : option char) : last_of prev [] = prev.
Proof. reflexivity. Qed.

(** Passing over [j] characters leads to the scan of what follows. *)
Lemma sub_go_skip (s : str) :
  forall (j : nat) (prev : option char),
    Re.sub_go r t j prev s
    = Re.sub_go r t 0 (last_of prev (take j s)) (drop j s).
Proof.
  induction s as [|c s IH]; intros j prev.
  - destruct j; reflexivity.
  - destruct j as [|j]; [reflexivity|].
    cbn [Re.sub_go take drop]. rewrite IH, last_of_cons. reflexivity.
Qed.

Lemma match_at_length (prev : option char) (s : str) (n : nat)
    (cs : Re.captures) :
  Re.match_at r prev s = Some (n, cs) -> (n <= length s)%nat.
Proof.
  unfold Re.match_at. destruct (Re.rmatch r prev s [] Re.accept) as [[rest cs']|];
    [|discriminate].
  intros [= <- _]. lia.
Qed.

Variable Q : option char -> str -> str -> Prop.

Hypothesis Q_nil : forall prev, Q prev [] [].

Hypothesis Q_keep : forall prev c s o,
  Q (Some c) s o -> Q prev (c :: s) (c :: o).

Hypothesis Q_match : forall prev s j cs o,
  Re.match_at r prev s = Some (S j, cs) ->
  Q (last_of prev (take (S j) s)) (drop (S j) s) o ->
  Q prev s (Re.expand t cs ++ o).

(** A relation between text and result that holds for the empty text,
    is kept by a character copied and by a match replaced, holds of
    [re.sub]. *)
Lemma sub_go_rel (n : nat) :
  forall (s : str) (prev : option char),
    (length s <= n)%nat -> Q prev s (Re.sub_go r t 0 prev s).
Proof.
  induction n as [|n IH]; intros s prev Hn.
  - destruct s; [apply Q_nil|cbn in Hn; lia].
  - destruct s as [|c s]; [apply Q_nil|].
    cbn [Re.sub_go].
    destruct (Re.match_at r prev (c :: s)) as [[[|j] cs]|] eqn:Hm;
      try (apply Q_keep, IH; cbn in Hn; lia).
    rewrite sub_go_skip. apply (Q_match _ _ j); [exact Hm|].
    cbn [take drop]. rewrite last_of_cons. apply IH.
    rewrite length_drop. cbn in Hn. lia.
Qed.

Lemma sub_rel (s : str) : Q None s (Re.sub r t s).
Proof. apply (sub_go_rel (length s)). lia. Qed.

End SubRel.

(** ** The patterns of the post-processing *)

Lemma rmatch_seq (r1 r2 : Re.regex) (prev : option char) (s : str)
    (cs : Re.captures) (k : Re.kont) :
  Re.rmatch (Re.Seq r1 r2) prev s cs k
  = Re.rmatch r1 prev s cs (fun prev' s' cs' => Re.rmatch r2 prev' s' cs' k).
Proof. reflexivity. Qed.

Lemma rmatch_alt (r1 r2 : Re.regex) (prev : option char) (s : str)
    (cs : Re.captures) (k : Re.kont) :
  Re.rmatch (Re.Alt r1 r2) prev s cs k
  = Re.orelse (Re.rmatch r1 prev s cs k) (Re.rmatch r2 prev s cs k).
Proof. reflexivity. Qed.

Lemma rmatch_group (n : nat) (r : Re.regex) (prev : option char) (s : str)
    (cs : Re.captures) (k : Re.kont) :
  Re.rmatch (Re.Group n r) prev s cs k
  = Re.rmatch r prev s cs (fun prev' s' cs' =>
      k prev' s' ((n, take (length s - length s')%nat s) :: cs')).
Proof. reflexivity. Qed.

Lemma rmatch_wordb (w : char -> bool) (prev : option char) (s : str)
    (cs : Re.captures) (k : Re.kont) :
  Re.rmatch (Re.WordB w) prev s cs k
  = if xorb (Re.word_before w prev) (Re.word_after w s)
    then k prev s cs else None.
Proof. reflexivity. Qed.

Lemma rmatch_plus (r : Re.regex) (prev : option char) (s : str)
    (cs : Re.captures) (k : Re.kont) :
  Re.rmatch (Re.Plus r) prev s cs k
  = Re.plus_loop (Re.rmatch r) k (S (length s)) prev s cs.
Proof. reflexivity. Qed.

Lemma take_consumed (u s : str) :
  take (length (u ++ s) - length s)%nat (u ++ s) = u.
Proof.
  rewrite length_app. replace (length u + length s - length s)%nat with (length u) by lia.
  apply take_app_length.
Qed.

Lemma at_end_nonspace (d : char) (s : str) :
  is_space d = false -> Re.at_end (d :: s) = false.
Proof.
  intros Hd. destruct s; [|reflexivity]. cbn.
  destruct (d =? 10) eqn:E; [|reflexivity].
  apply N.eqb_eq in E. subst d. discriminate.
Qed.

(** [\s([marks](?:\s|$))]: a whitespace character, a mark, and then
    either a whitespace character, which the group takes in, or the
    end of the text. *)
Lemma rmatch_punct (marks : str) (prev : option char) (s : str) :
  Re.rmatch (punct_after_space marks) prev s [] Re.accept
  = match s with
    | c :: m :: rest =>
        if is_space c && one_of marks m then
          match rest with
          | [] => Some ([], [(1%nat, [m])])
          | d :: rest' =>
              if is_space d then Some (rest', [(1%nat, [m; d])]) else None
          end
        else None
    | _ => None
    end.
Proof.
  unfold punct_after_space. rewrite rmatch_seq.
  destruct s as [|c s]; [reflexivity|]. rewrite rmatch_set_cons.
  destruct (is_space c); [|destruct s; reflexivity]. cbn [andb].
  rewrite rmatch_group, rmatch_seq.
  destruct s as [|m rest]; [reflexivity|]. rewrite rmatch_set_cons.
  destruct (one_of marks m); [|reflexivity].
  rewrite rmatch_alt. destruct rest as [|d rest'].
  - reflexivity.
  - rewrite rmatch_set_cons. destruct (is_space d) eqn:Hd.
    + cbn [Re.orelse]. unfold Re.accept.
      change (m :: d :: rest') with ([m; d] ++ rest').
      rewrite (take_consumed [m; d] rest'). reflexivity.
    + cbn [Re.orelse Re.rmatch]. rewrite at_end_nonspace by exact Hd. reflexivity.
Qed.

Lemma match_at_punct (marks : str) (prev : option char) (s : str) :
  Re.match_at (punct_after_space marks) prev s
  = match s with
    | c :: m :: rest =>
        if is_space c && one_of marks m then
          match rest with
          | [] => Some (2%nat, [(1%nat, [m])])
          | d :: rest' =>
              if is_space d then Some (3%nat, [(1%nat, [m; d])]) else None
          end
        else None
    | _ => None
    end.
Proof.
  unfold Re.match_at. rewrite rmatch_punct.
  destruct s as [|c [|m rest]]; try reflexivity.
  destruct (is_space c && one_of marks m); [|reflexivity].
  destruct rest as [|d rest']; [reflexivity|].
  destruct (is_space d); [|reflexivity].
  do 2 f_equal. cbn [length]. lia.
Qed.

Lemma strip_prefix_Some (l s s' : str) :
  strip_prefix l s = Some s' <-> s = l ++ s'.
Proof.
  revert s. induction l as [|c l IH]; intros s; cbn.
  - split; congruence.
  - destruct s as [|d s]; [split; discriminate|].
    destruct (c =? d) eqn:E.
    + apply N.eqb_eq in E. subst d. rewrite IH. split; congruence.
    + apply N.eqb_neq in E. split; [discriminate|congruence].
Qed.

Lemma strip_prefix_app (l s : str) : strip_prefix l (l ++ s) = Some s.
Proof. apply strip_prefix_Some. reflexivity. Qed.

(** A literal matches exactly the text that starts with it. *)
Lemma rmatch_lit (l : str) :
  forall (prev : option char) (s : str) (cs : Re.captures) (k : Re.kont),
    Re.rmatch (Re.lit l) prev s cs k
    = match strip_prefix l s with
      | Some s' => k (last_of prev l) s' cs
      | None => None
      end.
Proof.
  induction l as [|c l IH]; intros prev s cs k; [reflexivity|].
  destruct l as [|c' l'].
  - cbn [Re.lit strip_prefix]. destruct s as [|d s]; [reflexivity|].
    rewrite rmatch_set_cons. destruct (c =? d) eqn:E; [|reflexivity].
    apply N.eqb_eq in E. subst d. reflexivity.
  - change (Re.lit (c :: c' :: l'))
      with (Re.Seq (Re.Set_ (N.eqb c)) (Re.lit (c' :: l'))).
    rewrite rmatch_seq. destruct s as [|d s]; [reflexivity|].
    rewrite rmatch_set_cons.
    change (strip_prefix (c :: c' :: l') (d :: s))
      with (if c =? d then strip_prefix (c' :: l') s else None).
    destruct (c =? d) eqn:E; [|reflexivity].
    apply N.eqb_eq in E. subst d.
    rewrite IH, (last_of_cons prev c (c' :: l')). reflexivity.
Qed.

Lemma rmatch_group_lit (n : nat) (l : str) (prev : option char) (s : str)
    (cs : Re.captures) (k : Re.kont) :
  Re.rmatch (Re.Group n (Re.lit l)) prev s cs k
  = match strip_prefix l s with
    | Some s' => k (last_of prev l) s' ((n, l) :: cs)
    | None => None
    end.
Proof.
  rewrite rmatch_group, rmatch_lit.
  destruct (strip_prefix l s) as [s'|] eqn:E; [|reflexivity].
  apply strip_prefix_Some in E. subst s. rewrite take_consumed. reflexivity.
Qed.

Lemma rmatch_group_alt (n : nat) (r1 r2 : Re.regex) (prev : option char)
    (s : str) (cs : Re.captures) (k : Re.kont) :
  Re.rmatch (Re.Group n (Re.Alt r1 r2)) prev s cs k
  = Re.orelse (Re.rmatch (Re.Group n r1) prev s cs k)
              (Re.rmatch (Re.Group n r2) prev s cs k).
Proof. reflexivity. Qed.

Lemma orelse_Some (a b : Re.result) (res : str * Re.captures) :
  Re.orelse a b = Some res -> a = Some res \/ b = Some res.
Proof. destruct a; cbn; auto. Qed.

(** [(a|an|the)] as group [n]: the text starts with one of the three
    words, which the group holds. *)
Lemma group_article_sound (n : nat) (prev : option char) (s : str)
    (cs : Re.captures) (k : Re.kont) (res : str * Re.captures) :
  Re.rmatch (Re.Group n article) prev s cs k = Some res ->
  exists a s', In a articles /\ s = a ++ s'
    /\ k (last_of prev a) s' ((n, a) :: cs) = Some res.
Proof.
  unfold article. rewrite !rmatch_group_alt, !rmatch_group_lit. intros H.
  apply orelse_Some in H as [H|H]; [|apply orelse_Some in H as [H|H]];
    match type of H with
    | match strip_prefix ?a s with _ => _ end = _ =>
        destruct (strip_prefix a s) as [s'|] eqn:E; [|discriminate];
        apply strip_prefix_Some in E; exists a, s'; cbn; auto 6
    end.
Qed.

Section DoubleArticle.

Variable uword : char -> bool.

Local Abbreviation word := (is_word uword).
Local Abbreviation pattern := (double_article uword).

Lemma article_cases (a : str) :
  In a articles -> a = utf8 "a" \/ a = utf8 "an" \/ a = utf8 "the".
Proof. cbn. intuition auto. Qed.

Lemma article_word_after (a s : str) :
  In a articles -> Re.word_after word (a ++ s) = true.
Proof. intros H. apply article_cases in H as [->|[->| ->]]; reflexivity. Qed.

Lemma article_word_before (a : str) (prev : option char) :
  In a articles -> Re.word_before word (last_of prev a) = true.
Proof. intros H. apply article_cases in H as [->|[->| ->]]; reflexivity. Qed.

Lemma article_no_space (a s : str) : In a articles -> run is_space (a ++ s) = O.
Proof. intros H. apply article_cases in H as [->|[->| ->]]; reflexivity. Qed.

Lemma article_has_nonspace (a : str) : In a articles -> has_nonspace a = true.
Proof. intros H. apply article_cases in H as [->|[->| ->]]; reflexivity. Qed.

(** What [\b(a|an|the)\s+(a|an|the)\b] matches: an article, a run of
    whitespace and an article, between word boundaries; group 1 is
    the first article, group 2 the second. *)
Lemma double_article_sound (prev : option char) (s : str)
    (res : str * Re.captures) :
  Re.rmatch pattern prev s [] Re.accept = Some res ->
  exists a1 ws a2 rest,
    In a1 articles /\ In a2 articles
    /\ ws <> [] /\ Forall (fun c => is_space c = true) ws
    /\ s = a1 ++ ws ++ a2 ++ rest
    /\ Re.word_before word prev = false
    /\ Re.word_after word rest = false
    /\ res = (rest, [(2%nat, a2); (1%nat, a1)]).
Proof.
  unfold double_article. rewrite rmatch_seq, rmatch_wordb.
  destruct (xorb (Re.word_before word prev) (Re.word_after word s)) eqn:Hb;
    [|discriminate].
  rewrite rmatch_seq. intros H.
  apply group_article_sound in H as (a1 & s1 & Ha1 & -> & H).
  unfold ws_run in H. rewrite rmatch_seq, rmatch_plus in H.
  apply plus_loop_sound in H as (ws & s2 & -> & Hne & Hws & H).
  rewrite rmatch_seq in H.
  apply group_article_sound in H as (a2 & rest & Ha2 & -> & H).
  rewrite rmatch_wordb in H.
  rewrite (article_word_before a2 _ Ha2) in H.
  rewrite (article_word_after a1 _ Ha1) in Hb.
  destruct (Re.word_after word rest) eqn:Hr; [discriminate|].
  destruct (Re.word_before word prev); [discriminate|].
  cbn in H. injection H as <-.
  exists a1, ws, a2, rest. auto 10.
Qed.

Lemma group_article_complete (n : nat) (a s : str) (prev : option char)
    (cs : Re.captures) (k : Re.kont) (res : str * Re.captures) :
  In a articles ->
  k (last_of prev a) s ((n, a) :: cs) = Some res ->
  (a = utf8 "an" -> k (Some 97) (110 :: s) ((n, utf8 "a") :: cs) = None) ->
  Re.rmatch (Re.Group n article) prev (a ++ s) cs k = Some res.
Proof.
  intros Ha Hk Han. unfold article.
  rewrite !rmatch_group_alt, !rmatch_group_lit.
  apply article_cases in Ha as [->|[->| ->]].
  - rewrite strip_prefix_app. cbn in Hk |- *. rewrite Hk. reflexivity.
  - change (strip_prefix (utf8 "a") (utf8 "an" ++ s)) with (Some (110 :: s)).
    change (last_of prev (utf8 "a")) with (Some 97).
    cbv beta iota. rewrite (Han eq_refl). rewrite strip_prefix_app.
    cbn [Re.orelse]. rewrite Hk. reflexivity.
  - change (strip_prefix (utf8 "a") (utf8 "the" ++ s)) with (@None (list N)).
    change (strip_prefix (utf8 "an") (utf8 "the" ++ s)) with (@None (list N)).
    rewrite strip_prefix_app. cbn [Re.orelse]. exact Hk.
Qed.

(** Every such text is matched, in full. *)
Lemma double_article_complete (a1 ws a2 rest : str) (prev : option char) :
  In a1 articles -> In a2 articles ->
  ws <> [] -> Forall (fun c => is_space c = true) ws ->
  Re.word_before word prev = false ->
  Re.word_after word rest = false ->
  Re.rmatch pattern prev (a1 ++ ws ++ a2 ++ rest) [] Re.accept
  = Some (rest, [(2%nat, a2); (1%nat, a1)]).
Proof.
  intros Ha1 Ha2 Hne Hws Hprev Hrest.
  unfold double_article. rewrite rmatch_seq, rmatch_wordb.
  rewrite Hprev, (article_word_after a1 _ Ha1). cbn [xorb].
  rewrite rmatch_seq.
  apply group_article_complete; [exact Ha1| |].
  - unfold ws_run. rewrite rmatch_seq, rmatch_plus.
    apply plus_loop_greedy; try assumption.
    + apply article_no_space, Ha2.
    + rewrite length_app. lia.
    + rewrite rmatch_seq. apply group_article_complete; [exact Ha2| |].
      * rewrite rmatch_wordb, (article_word_before a2 _ Ha2), Hrest. reflexivity.
      * intros _. reflexivity.
  - intros _. unfold ws_run. rewrite rmatch_seq, rmatch_plus.
    apply plus_loop_no_run. reflexivity.
Qed.

End DoubleArticle.

(** ** What post-processing leaves of the text *)

Lemma has_nonspace_app (a b : str) :
  has_nonspace (a ++ b) = has_nonspace a || has_nonspace b.
Proof. apply existsb_app. Qed.

Lemma has_nonspace_cons (c : char) (s : str) :
  has_nonspace (c :: s) = negb (is_space c) || has_nonspace s.
Proof. reflexivity. Qed.

Lemma has_nonspace_false (s : str) :
  has_nonspace s = false <-> Forall (fun c => is_space c = true) s.
Proof.
  induction s as [|c s IH]; cbn.
  - split; [constructor|reflexivity].
  - rewrite orb_false_iff, IH, negb_false_iff. split.
    + intros [? ?]. constructor; assumption.
    + inversion 1; auto.
Qed.

Lemma lstrip_blank (s : str) :
  Forall (fun c => is_space c = true) s -> py_lstrip s = [].
Proof. induction 1 as [|c s Hc _ IH]; [reflexivity|]. cbn. rewrite Hc. exact IH. Qed.

(** [strip] leaves nothing exactly of text that is all whitespace. *)
Lemma strip_nil_iff (s : str) : py_strip s = [] <-> has_nonspace s = false.
Proof.
  rewrite has_nonspace_false. split.
  - intros H. destruct (strip_infix s) as (l & r & Heq & Hl & Hr).
    rewrite H in Heq. rewrite Heq. apply Forall_app. auto.
  - intros H. unfold py_strip. rewrite lstrip_blank by exact H. reflexivity.
Qed.

(** The punctuation pattern deletes whitespace only. *)
Lemma sub_punct_has_nonspace (marks s : str) :
  has_nonspace (Re.sub (punct_after_space marks) [Re.TRef 1] s) = has_nonspace s.
Proof.
  apply (sub_rel _ _ (fun _ s o => has_nonspace o = has_nonspace s)).
  - reflexivity.
  - intros _ c s' o H. rewrite !has_nonspace_cons, H. reflexivity.
  - intros prev s' j cs o Hm H. rewrite match_at_punct in Hm.
    destruct s' as [|c [|m rest]]; try discriminate.
    destruct (is_space c) eqn:Hc; [|discriminate].
    destruct (one_of marks m); [|discriminate]. cbn [andb] in Hm.
    destruct rest as [|d rest'].
    + injection Hm as <- <-.
      change (Re.expand [Re.TRef 1] [(1%nat, [m])]) with [m].
      change (drop 2 [c; m]) with (@nil N) in H.
      rewrite has_nonspace_app, H, !has_nonspace_cons, Hc.
      destruct (is_space m); reflexivity.
    + destruct (is_space d) eqn:Hd; [|discriminate].
      injection Hm as <- <-.
      change (Re.expand [Re.TRef 1] [(1%nat, [m; d])]) with [m; d].
      change (drop 3 (c :: m :: d :: rest')) with rest' in H.
      rewrite has_nonspace_app, H, !has_nonspace_cons, Hc, Hd.
      destruct (is_space m); reflexivity.
Qed.

(** The article pattern keeps an article of every match. *)
Lemma sub_article_has_nonspace (uword : char -> bool) (s : str) :
  has_nonspace s = true ->
  has_nonspace (Re.sub (double_article uword) [Re.TRef 1] s) = true.
Proof.
  apply (sub_rel _ _ (fun _ s o => has_nonspace s = true -> has_nonspace o = true)).
  - discriminate.
  - intros _ c s' o H. rewrite !has_nonspace_cons.
    destruct (is_space c); cbn [negb orb]; auto.
  - intros prev s' j cs o Hm _ _. unfold Re.match_at in Hm.
    destruct (Re.rmatch _ prev s' [] Re.accept) as [[rest cs']|] eqn:E;
      [|discriminate].
    injection Hm as _ <-.
    apply double_article_sound in E as (a1 & ws & a2 & rest' & Ha1 & _ & _ & _ & _ & _ & _ & E).
    injection E as _ ->.
    change (Re.expand [Re.TRef 1] [(2%nat, a2); (1%nat, a1)]) with (a1 ++ []).
    rewrite app_nil_r, has_nonspace_app, (article_has_nonspace a1 Ha1).
    reflexivity.
Qed.

Lemma is_space_en_ar_char (c : char) : is_space (en_ar_char c) = is_space c.
Proof.
  unfold en_ar_char.
  repeat match goal with
         | |- context [if ?a =? ?b then _ else _] =>
             destruct (N.eqb_spec a b); [subst; reflexivity|]
         end.
  reflexivity.
Qed.

(** The en-ar branch: the four replacements as one map, then the
    punctuation pattern. *)
Lemma postprocess_en_ar_map (raw : str) :
  postprocess_en_ar raw
  = Re.sub (punct_after_space (utf8 "؟،؛")) [Re.TRef 1] (map en_ar_char raw).
Proof.
  unfold postprocess_en_ar, py_replace. rewrite !map_map. f_equal.
  apply map_ext. intros c. unfold en_ar_char, QUOTE.
  repeat match goal with
         | |- context [if c =? ?b then _ else _] =>
             destruct (N.eqb_spec c b); [subst; reflexivity|]
         end.
  reflexivity.
Qed.

Lemma postprocess_en_ar_has_nonspace (raw : str) :
  has_nonspace (postprocess_en_ar raw) = has_nonspace raw.
Proof.
  rewrite postprocess_en_ar_map, sub_punct_has_nonspace.
  unfold has_nonspace. induction raw as [|c raw IH]; [reflexivity|].
  cbn. rewrite IH, is_space_en_ar_char. reflexivity.
Qed.

(** ** The post-processing claims *)

Lemma match_at_double_article (uword : char -> bool) (prev : option char)
    (s : str) (n : nat) (cs : Re.captures) :
  Re.match_at (double_article uword) prev s = Some (n, cs)
  <-> exists a1 ws a2 rest,
        In a1 articles /\ In a2 articles
        /\ ws <> [] /\ Forall (fun c => is_space c = true) ws
        /\ s = a1 ++ ws ++ a2 ++ rest
        /\ Re.word_before (is_word uword) prev = false
        /\ Re.word_after (is_word uword) rest = false
        /\ n = length (a1 ++ ws ++ a2)
        /\ cs = [(2%nat, a2); (1%nat, a1)].
Proof.
  unfold Re.match_at. split.
  - destruct (Re.rmatch _ prev s [] Re.accept) as [[rest cs']|] eqn:E;
      [|discriminate].
    intros [= <- <-].
    apply double_article_sound in E
      as (a1 & ws & a2 & rest' & Ha1 & Ha2 & Hne & Hws & -> & Hp & Hr & E).
    injection E as -> ->.
    exists a1, ws, a2, rest'. repeat split; try assumption.
    rewrite !length_app. lia.
  - intros (a1 & ws & a2 & rest & Ha1 & Ha2 & Hne & Hws & -> & Hp & Hr & -> & ->).
    rewrite double_article_complete by assumption.
    do 2 f_equal. rewrite !length_app. lia.
Qed.





(** ** Blank translations *)

Lemma is_space_false_range (c : char) : 0x21 <= c <= 0x84 -> is_space c = false.
Proof.
  intros [H1 H2]. unfold is_space.
  replace (c <=? 0x0D) with false by (symmetry; apply N.leb_gt; lia).
  replace (c <=? 0x20) with false by (symmetry; apply N.leb_gt; lia).
  replace (0x2000 <=? c) with false by (symmetry; apply N.leb_gt; lia).
  repeat match goal with
         | |- context [c =? ?b] =>
             replace (c =? b) with false by (symmetry; apply N.eqb_neq; lia)
         end.
  rewrite !andb_false_r. reflexivity.
Qed.

Section Blank.

Variable nfkd : str -> str.
Variable replace_emoji : str -> str.
Variable uword : char -> bool.
Variable uupper : char -> str.
Variable W : Type.
Variable E : Type.
Variable engine : W -> option str -> W * (E + str).

Local Abbreviation clean := (clean_text nfkd replace_emoji uword).
Local Abbreviation translate :=
  (translate_text nfkd replace_emoji uword uupper W E engine).

(** Upper-casing does not turn a character into whitespace. *)
Hypothesis uupper_nonspace :
  forall c : char, is_space c = false -> has_nonspace (uupper c) = true.

Lemma py_upper_nonspace (c : char) :
  is_space c = false -> has_nonspace (py_upper uupper c) = true.
Proof.
  intros Hc. unfold py_upper. destruct (c <? 128) eqn:H128; [|auto].
  destruct (in_range 0x61 0x7A c) eqn:Hr.
  - apply in_range_spec in Hr. cbn.
    rewrite is_space_false_range by lia. reflexivity.
  - cbn. rewrite Hc. reflexivity.
Qed.

Lemma postprocess_ar_en_nonspace (raw : str) (self : pipeline W E) :
  has_nonspace raw = true ->
  exists out, postprocess_ar_en uword uupper W E raw self = (Return out, self)
    /\ has_nonspace out = true.
Proof.
  intros H. destruct raw as [|c rest]; [discriminate|].
  eexists. split; [reflexivity|].
  rewrite sub_punct_has_nonspace. apply sub_article_has_nonspace.
  rewrite has_nonspace_app. rewrite has_nonspace_cons in H.
  destruct (is_space c) eqn:Hc.
  - cbn in H. rewrite H. apply orb_true_r.
  - rewrite py_upper_nonspace by exact Hc. reflexivity.
Qed.

(** Upper-casing does not turn whitespace into anything else. *)
Hypothesis uupper_space :
  forall c : char, is_space c = true -> has_nonspace (uupper c) = false.

Lemma py_upper_space (c : char) :
  is_space c = true -> has_nonspace (py_upper uupper c) = false.
Proof.
  intros Hc. unfold py_upper. destruct (c <? 128) eqn:H128; [|auto].
  destruct (in_range 0x61 0x7A c) eqn:Hr.
  - apply in_range_spec in Hr.
    rewrite is_space_false_range in Hc by lia. discriminate.
  - cbn. rewrite Hc. reflexivity.
Qed.

(** The article pattern neither removes the last character that is
    not whitespace nor brings one in. *)
Lemma sub_article_has_nonspace_eq (s : str) :
  has_nonspace (Re.sub (double_article uword) [Re.TRef 1] s) = has_nonspace s.
Proof.
  apply (sub_rel _ _ (fun _ s o => has_nonspace o = has_nonspace s)).
  - reflexivity.
  - intros _ c s' o H. rewrite !has_nonspace_cons, H. reflexivity.
  - intros prev s' j cs o Hm _. unfold Re.match_at in Hm.
    destruct (Re.rmatch _ prev s' [] Re.accept) as [[rest cs']|] eqn:Em;
      [|discriminate].
    injection Hm as _ <-.
    apply double_article_sound in Em
      as (a1 & ws & a2 & rest' & Ha1 & _ & _ & _ & -> & _ & _ & Em).
    injection Em as _ ->.
    change (Re.expand [Re.TRef 1] [(2%nat, a2); (1%nat, a1)]) with (a1 ++ []).
    rewrite app_nil_r, !has_nonspace_app, (article_has_nonspace a1 Ha1).
    reflexivity.
Qed.

Lemma postprocess_ar_en_has_nonspace (c : char) (rest : str)
    (self : pipeline W E) :
  exists out,
    postprocess_ar_en uword uupper W E (c :: rest) self = (Return out, self)
    /\ has_nonspace out = has_nonspace (c :: rest).
Proof.
  eexists. split; [reflexivity|].
  rewrite sub_punct_has_nonspace, sub_article_has_nonspace_eq.
  rewrite has_nonspace_app, has_nonspace_cons.
  destruct (is_space c) eqn:Hc.
  - rewrite py_upper_space by exact Hc. reflexivity.
  - rewrite py_upper_nonspace by exact Hc. reflexivity.
Qed.

(** C2 (amended): on the miss path with an engine output raw, in
    direction ar-en an empty raw makes translate_text raise IndexError
    with the cache unchanged, and any other raw is returned and cached
    as a result; in direction en-ar translate_text always returns and
    caches a result; in both directions the translated field of that
    result is empty exactly when raw has no character other than
    whitespace (for en-ar the empty raw included). *)
Theorem translate_text_blank (text : str) (self : pipeline W E) (w : W)
    (raw : str) :
  translation_cache self !! text = None ->
  engine (engine_state self) (clean text (src_lang (direction self))) = (w, inr raw) ->
  match direction self with
  | ar_en =>
      (raw = [] ->
       fst (translate text self) = Raise IndexError
       /\ translation_cache (snd (translate text self)) = translation_cache self)
      /\ (raw <> [] ->
          exists r, fst (translate text self) = Return r
            /\ translation_cache (snd (translate text self)) !! text = Some r
            /\ (translated r = [] <-> has_nonspace raw = false))
  | en_ar =>
      exists r, fst (translate text self) = Return r
        /\ translation_cache (snd (translate text self)) !! text = Some r
        /\ (translated r = [] <-> has_nonspace raw = false)
  end.
Proof.
  intros Hc He.
  pose proof (translate_miss_engine_returns nfkd replace_emoji uword uupper
                W E engine text self w raw Hc He) as Ht.
  cbv zeta in Ht. destruct (direction self) eqn:Hd.
  - split.
    + intros ->. rewrite Ht. cbn. split; reflexivity.
    + intros Hne. destruct raw as [|c rest]; [congruence|].
      rewrite Ht. cbn [postprocess].
      destruct (postprocess_ar_en_has_nonspace c rest
                  (after_engine self w (clean text (src_lang ar_en))))
        as (out & -> & Hout).
      cbn [fst snd]. eexists. split; [reflexivity|].
      split; [apply lookup_insert_eq|].
      cbn [translated]. rewrite strip_nil_iff, Hout. reflexivity.
  - rewrite Ht. cbn [postprocess ret fst snd]. eexists.
    split; [reflexivity|]. split; [apply lookup_insert_eq|].
    cbn [translated]. rewrite strip_nil_iff, postprocess_en_ar_has_nonspace.
    reflexivity.
Qed.

End Blank.

Lemma translate_text_blank_witness :
  exists r,
    fst (Stub.translate_text (Stub.const (utf8 "  ")) (utf8 "مرحبا") (Stub.new ar_en))
    = Return r
    /\ translation_cache
         (snd (Stub.translate_text (Stub.const (utf8 "  ")) (utf8 "مرحبا")
                 (Stub.new ar_en)))
       !! utf8 "مرحبا" = Some r
    /\ (translated r = [] <-> has_nonspace (utf8 "  ") = false).
Proof.
  apply (translate_text_blank Stub.nfkd Stub.replace_emoji Stub.uword Stub.uupper
           nat unit (Stub.const (utf8 "  "))
           (fun c H => eq_trans (orb_false_r _) (f_equal negb H))
           (fun c H => eq_trans (orb_false_r _) (f_equal negb H))
           (utf8 "مرحبا") (Stub.new ar_en) 1%nat (utf8 "  "));
    first [reflexivity | discriminate].
Defined.

(** C2 fails as stated: for en-ar an empty engine output, and for
    ar-en an engine output of one space, are returned and cached with
    an empty translated field although the cleaned text is not None. *)
Lemma translate_text_caches_blank :
  (fst (Stub.translate_text (Stub.const []) (utf8 "hello") (Stub.new en_ar))
   = Return {| original := utf8 "hello"; cleaned := Some (utf8 "hello");
               translated := [] |}
   /\ translation_cache
        (snd (Stub.translate_text (Stub.const []) (utf8 "hello") (Stub.new en_ar)))
      !! utf8 "hello"
      = Some {| original := utf8 "hello"; cleaned := Some (utf8 "hello");
                translated := [] |})
  /\ (fst (Stub.translate_text (Stub.const (utf8 " ")) (utf8 "مرحبا")
             (Stub.new ar_en))
      = Return {| original := utf8 "مرحبا"; cleaned := Some (utf8 "مرحبا");
                  translated := [] |}
      /\ translation_cache
           (snd (Stub.translate_text (Stub.const (utf8 " ")) (utf8 "مرحبا")
                   (Stub.new ar_en)))
         !! utf8 "مرحبا"
         = Some {| original := utf8 "مرحبا"; cleaned := Some (utf8 "مرحبا");
                   translated := [] |}).
Proof. repeat split; vm_compute; reflexivity. Qed.

(** C5 fails as stated: "   " is rejected by cleaning, and the engine
    is called all the same, with None; the exception raised is the
    engine's. *)
Lemma translate_text_rejected_calls_engine :
  translation_cache (Stub.new ar_en) !! utf8 "   " = None
  /\ Stub.clean_text (utf8 "   ") (src_lang ar_en) = None
  /\ Stub.translate_text Stub.echo (utf8 "   ") (Stub.new ar_en)
     = (Raise (EngineError tt),
        {| direction := ar_en;
           translation_cache := ∅;
           log_file := [TranslationErrorEntry (EngineError tt)];
           engine_state := 1%nat;
           engine_calls := [None] |})
  /\ engine_calls (snd (Stub.translate_text Stub.echo (utf8 "   ") (Stub.new ar_en)))
     <> engine_calls (Stub.new ar_en).
Proof.
  split; [reflexivity|]. split; [vm_compute; reflexivity|].
  split; [vm_compute; reflexivity|]. vm_compute. discriminate.
Qed.

Lemma translate_text_rejected_reaches_engine_witness :
  engine_calls (snd (Stub.translate_text Stub.echo (utf8 "   ") (Stub.new ar_en)))
  = None :: engine_calls (Stub.new ar_en)
  /\ forall (w : nat) (e : unit),
       Stub.echo (engine_state (Stub.new ar_en)) None = (w, inl e) ->
       Stub.translate_text Stub.echo (utf8 "   ") (Stub.new ar_en)
       = (Raise (EngineError e),
          logged (after_engine (Stub.new ar_en) w None)
                 (TranslationErrorEntry (EngineError e))).
Proof.
  apply (translate_text_rejected_reaches_engine Stub.nfkd Stub.replace_emoji
           Stub.uword Stub.uupper nat unit Stub.echo (utf8 "   ") (Stub.new ar_en)).
  - reflexivity.
  - vm_compute. reflexivity.
Defined.

Lemma translate_text_cached_witness :
  translation_cache
    (snd (Stub.translate_text Stub.echo (utf8 "Hello,   world!!!") (Stub.new en_ar)))
  !! utf8 "Hello,   world!!!"
  = Some {| original := utf8 "Hello,   world!!!";
            cleaned := Some (utf8 "Hello, world!!!");
            translated := utf8 "Hello، world!!!" |}
  /\ Stub.translate_text Stub.echo (utf8 "Hello,   world!!!")
       (snd (Stub.translate_text Stub.echo (utf8 "Hello,   world!!!") (Stub.new en_ar)))
     = (Return {| original := utf8 "Hello,   world!!!";
                  cleaned := Some (utf8 "Hello, world!!!");
                  translated := utf8 "Hello، world!!!" |},
        snd (Stub.translate_text Stub.echo (utf8 "Hello,   world!!!") (Stub.new en_ar)))
  /\ engine_calls
       (snd (Stub.translate_text Stub.echo (utf8 "Hello,   world!!!")
          (snd (Stub.translate_text Stub.echo (utf8 "Hello,   world!!!")
                  (Stub.new en_ar)))))
     = engine_calls
         (snd (Stub.translate_text Stub.echo (utf8 "Hello,   world!!!") (Stub.new en_ar))).
Proof.
  apply (translate_text_cached Stub.nfkd Stub.replace_emoji Stub.uword Stub.uupper
           nat unit Stub.echo (utf8 "Hello,   world!!!") (Stub.new en_ar)).
  vm_compute. reflexivity.
Defined.

Lemma translate_text_raise_keeps_cache_witness :
  translation_cache
    (snd (Stub.translate_text (Stub.const []) (utf8 "مرحبا") (Stub.new ar_en)))
  = translation_cache (Stub.new ar_en).
Proof.
  apply (translate_text_raise_keeps_cache Stub.nfkd Stub.replace_emoji Stub.uword
           Stub.uupper nat unit (Stub.const []) (utf8 "مرحبا") (Stub.new ar_en)
           _ IndexError).
  vm_compute. reflexivity.
Defined.

(** ** Further facts on [clean_text] *)

Section CleanMore.

Variable nfkd : str -> str.
Variable replace_emoji : str -> str.
Variable uword : char -> bool.

Local Abbreviation clean := (clean_text nfkd replace_emoji uword).

Lemma squeezed_blank (x : str) :
  Forall (fun c => is_space c = true) x -> squeezed x = [].
Proof.
  intros H. rewrite squeezed_collapse. apply strip_nil_iff, has_nonspace_false.
  apply collapse_Forall; [reflexivity|exact H].
Qed.

(** X1: text that is all whitespace is rejected, in every language. *)
Lemma clean_text_blank (x lang : str) :
  nfkd [] = [] -> replace_emoji [] = [] ->
  Forall (fun c => is_space c = true) x ->
  clean x lang = None.
Proof.
  intros Hn He Hx. apply clean_text_None. unfold clean_steps.
  fold (squeezed x). rewrite (squeezed_blank x Hx), He.
  destruct (decide _); [unfold normalize_arabic; rewrite Hn|]; reflexivity.
Qed.

Lemma spaced_no_space (x : str) (b : bool) :
  Forall (fun c => is_space c = false) x -> spaced b x = true.
Proof.
  intros H. revert b. induction H as [|c x Hc _ IH]; intros b; [reflexivity|].
  cbn. rewrite Hc. apply IH.
Qed.

Lemma squeezed_no_space (x : str) :
  Forall (fun c => is_space c = false) x -> squeezed x = x.
Proof.
  intros H. rewrite squeezed_collapse. unfold collapse.
  rewrite (collapse_fixed false x (spaced_no_space x false H)).
  apply strip_fixed.
  - destruct H as [|c x Hc _]; [reflexivity|exact Hc].
  - apply Forall_reverse in H.
    destruct H as [|c x' Hc _]; [reflexivity|exact Hc].
Qed.

(** X2: for English, a non-empty text made of characters outside the
    allowed set, which the emoji removal leaves alone, is returned as
    that many spaces. *)
Lemma clean_text_disallowed_only (x : str) :
  x <> [] ->
  Forall (fun c => allowed_en uword c = false) x ->
  replace_emoji x = x ->
  clean x (utf8 "en") = Some (map (fun _ => SPACE) x).
Proof.
  intros Hne Hall Hem. apply clean_text_Some. split; [|destruct x; [congruence|discriminate]].
  assert (Hsp : Forall (fun c => is_space c = false) x).
  { eapply Forall_impl; [exact Hall|]. intros c Hc. cbv beta in Hc.
    unfold allowed_en in Hc.
    destruct (is_space c); [|reflexivity].
    rewrite orb_true_r in Hc. discriminate. }
  unfold clean_steps. fold (squeezed x). rewrite (squeezed_no_space x Hsp), Hem.
  rewrite decide_False by (vm_compute; congruence).
  unfold en_disallowed. rewrite sub_set_chr.
  clear -Hall. induction Hall as [|c x Hc _ IH]; [reflexivity|].
  cbn. rewrite Hc, IH. reflexivity.
Qed.

(** No pattern of the program matches the empty string. *)
Lemma patterns_consume (r : Re.regex) (prev : option char) (s : str)
    (cs : Re.captures) :
  In r [diacritics; ws_run; ar_disallowed uword; en_disallowed uword;
        double_article uword; punct_after_space (utf8 "?.!,;");
        punct_after_space (utf8 "؟،؛")] ->
  Re.match_at r prev s <> Some (O, cs).
Proof.
  cbn [In]. intros [<-|[<-|[<-|[<-|[<-|[<-|[<-|[]]]]]]]].
  - unfold diacritics. destruct s; [discriminate|].
    rewrite match_at_set. destruct (in_range _ _ _); discriminate.
  - unfold ws_run. rewrite match_at_plus. destruct (run is_space s); discriminate.
  - unfold ar_disallowed. destruct s; [discriminate|].
    rewrite match_at_set. destruct (negb _); discriminate.
  - unfold en_disallowed. destruct s; [discriminate|].
    rewrite match_at_set. destruct (negb _); discriminate.
  - intros H. apply match_at_double_article in H
      as (a1 & ws & a2 & rest & Ha1 & _ & _ & _ & _ & _ & _ & Hn & _).
    rewrite length_app in Hn. apply article_cases in Ha1 as [->|[->| ->]];
      cbn in Hn; lia.
  - rewrite match_at_punct. destruct s as [|c [|m [|d rest]]]; try discriminate.
    + destruct (_ && _); discriminate.
    + destruct (_ && _); [destruct (is_space d)|]; discriminate.
  - rewrite match_at_punct. destruct s as [|c [|m [|d rest]]]; try discriminate.
    + destruct (_ && _); discriminate.
    + destruct (_ && _); [destruct (is_space d)|]; discriminate.
Qed.

End CleanMore.

(** * Further properties of the code *)

(** ** [normalize_arabic] and [clean_text] *)

Lemma one_of_variants_false (c : char) :
  one_of variants c = false ->
  c <> 0x625 /\ c <> 0x623 /\ c <> 0x622 /\ c <> 0x671 /\ c <> 0x649 /\ c <> 0x629.
Proof.
  unfold one_of, variants. cbn [existsb]. rewrite !orb_false_iff, !N.eqb_neq.
  tauto.
Qed.

(** The table maps no character to one of its keys. *)
Lemma normalizer_image (c : char) :
  one_of variants (default c (arabic_normalizer !! c)) = false.
Proof.
  destruct (one_of variants c) eqn:H.
  - unfold one_of, variants in H. cbn [existsb] in H.
    rewrite !orb_true_iff, !N.eqb_eq in H.
    destruct H as [->|[->|[->|[->|[->|[->|H]]]]]]; try discriminate H;
      vm_compute; reflexivity.
  - pose proof (one_of_variants_false c H) as (H1 & H2 & H3 & H4 & H5 & H6).
    unfold arabic_normalizer. cbn [list_to_map foldr fst snd uncurry].
    rewrite !lookup_insert_ne by congruence. rewrite lookup_empty. exact H.
Qed.

(** X3: whatever the decomposition, the result of normalize_arabic
    contains none of the six letter variants the table replaces
    (alef with hamza above or below, with madda, alef wasla, alef
    maksura, teh marbuta). *)
Theorem normalize_arabic_no_variants (nfkd : str -> str) (text : str) :
  Forall (fun c => one_of variants c = false) (normalize_arabic nfkd text).
Proof.
  unfold normalize_arabic, diacritics. rewrite sub_set_delete.
  apply Forall_forall. intros c Hc.
  apply list_elem_of_filter in Hc as [_ Hc].
  apply list_elem_of_fmap in Hc as (c' & -> & _).
  apply normalizer_image.
Qed.

Lemma nonspaces_cons (c : char) (s : str) :
  nonspaces (c :: s) = if is_space c then nonspaces s else c :: nonspaces s.
Proof.
  unfold nonspaces. rewrite filter_cons.
  destruct (is_space c); [rewrite decide_False by discriminate|rewrite decide_True by reflexivity];
    reflexivity.
Qed.

Lemma nonspaces_app (a b : str) : nonspaces (a ++ b) = nonspaces a ++ nonspaces b.
Proof. apply filter_app. Qed.

Lemma nonspaces_blank (s : str) :
  Forall (fun c => is_space c = true) s -> nonspaces s = [].
Proof.
  induction 1 as [|c s Hc _ IH]; [reflexivity|].
  rewrite nonspaces_cons, Hc. exact IH.
Qed.

Lemma nonspaces_nil_iff (s : str) : nonspaces s = [] <-> has_nonspace s = false.
Proof.
  induction s as [|c s IH]; [split; reflexivity|].
  rewrite nonspaces_cons, has_nonspace_cons.
  destruct (is_space c); cbn [negb orb]; [exact IH|split; discriminate].
Qed.

Lemma nonspaces_strip (s : str) : nonspaces (py_strip s) = nonspaces s.
Proof.
  destruct (strip_infix s) as (l & r & Heq & Hl & Hr).
  rewrite Heq at 2. rewrite !nonspaces_app.
  rewrite (nonspaces_blank l Hl), (nonspaces_blank r Hr), app_nil_r. reflexivity.
Qed.

Lemma nonspaces_collapse (b : bool) (s : str) :
  nonspaces (collapse_from b s) = nonspaces s.
Proof.
  revert b. induction s as [|c s IH]; intros b; [reflexivity|].
  cbn [collapse_from]. rewrite (nonspaces_cons c s).
  destruct (is_space c) eqn:Hc.
  - destruct b; [apply IH|]. rewrite nonspaces_cons. cbn. apply IH.
  - rewrite nonspaces_cons, Hc, IH. reflexivity.
Qed.

(** X4: the first statement of clean_text (whitespace runs replaced
    by one space, then strip) gives text whose only whitespace is
    single U+0020 characters between other characters, keeps the
    other characters in order, and changes nothing when applied
    again. *)
Theorem squeezed_normal_form (text : str) :
  spaced false (squeezed text) = true
  /\ starts_with_space (squeezed text) = false
  /\ starts_with_space (reverse (squeezed text)) = false
  /\ nonspaces (squeezed text) = nonspaces text
  /\ squeezed (squeezed text) = squeezed text.
Proof.
  rewrite !squeezed_collapse. repeat split.
  - destruct (strip_infix (collapse text)) as (l & r & Heq & _ & _).
    pose proof (collapse_spaced false text) as H. fold collapse in H.
    rewrite Heq in H. apply spaced_suffix in H. apply spaced_prefix in H. exact H.
  - apply strip_no_lead.
  - apply strip_no_trail.
  - rewrite nonspaces_strip. apply nonspaces_collapse.
  - rewrite <- !squeezed_collapse. apply squeezed_idempotent.
Qed.

Section CleanAllowed.

Variable nfkd : str -> str.
Variable replace_emoji : str -> str.
Variable uword : char -> bool.

Lemma sub_disallowed_allowed (a : char -> bool) (s : str) :
  a SPACE = true ->
  Forall (fun c => a c = true)
    (Re.sub (Re.Set_ (fun c => negb (a c))) [Re.TChr SPACE] s).
Proof.
  intros Hsp. rewrite sub_set_chr. apply Forall_forall. intros c Hc.
  apply list_elem_of_fmap in Hc as (c' & -> & _).
  destruct (a c') eqn:E; cbn; assumption.
Qed.

(** X5: whatever clean_text returns other than None is a non-empty
    text made only of characters its language allows: word
    characters, whitespace, the punctuation of the allowlist and, for
    Arabic, the Arabic block. *)
Theorem clean_text_allowed_only (text lang s : str) :
  clean_text nfkd replace_emoji uword text lang = Some s ->
  s <> [] /\ Forall (fun c => allowed uword lang c = true) s.
Proof.
  intros H. apply clean_text_Some in H as [<- Hne]. split; [exact Hne|].
  unfold clean_steps, allowed.
  destruct (decide (lang = utf8 "ar")); apply sub_disallowed_allowed; reflexivity.
Qed.

End CleanAllowed.

Lemma clean_text_allowed_only_witness :
  utf8 "a  b" <> []
  /\ Forall (fun c => allowed Stub.uword (utf8 "ar") c = true) (utf8 "a  b").
Proof.
  apply (clean_text_allowed_only Stub.nfkd Stub.replace_emoji Stub.uword
           (utf8 "a ً b") (utf8 "ar") (utf8 "a  b")).
  vm_compute. reflexivity.
Defined.

Lemma clean_text_blank_witness :
  Stub.clean_text (utf8 " 	 ") (utf8 "fr") = None.
Proof.
  apply (clean_text_blank Stub.nfkd Stub.replace_emoji Stub.uword).
  - reflexivity.
  - reflexivity.
  - vm_compute. repeat constructor.
Defined.

Lemma clean_text_disallowed_only_witness :
  Stub.clean_text (utf8 "#@%&") (utf8 "en") = Some (utf8 "    ").
Proof.
  apply (clean_text_disallowed_only Stub.nfkd Stub.replace_emoji Stub.uword
           (utf8 "#@%&")).
  - discriminate.
  - vm_compute. repeat constructor.
  - reflexivity.
Defined.

(** ** What a call of [translate_text] changes *)

Section TranslateEffect.

Variable nfkd : str -> str.
Variable replace_emoji : str -> str.
Variable uword : char -> bool.
Variable uupper : char -> str.
Variable W : Type.
Variable E : Type.
Variable engine : W -> option str -> W * (E + str).

Local Abbreviation clean := (clean_text nfkd replace_emoji uword).
Local Abbreviation translate :=
  (translate_text nfkd replace_emoji uword uupper W E engine).
Local Abbreviation post := (postprocess uword uupper W E).

(** The outcome and the pipeline left by a call, path by path. *)
Lemma translate_paths (text : str) (self : pipeline W E) :
  (exists r, translation_cache self !! text = Some r
     /\ translate text self = (Return r, self))
  \/ (translation_cache self !! text = None
      /\ exists w,
           let c := clean text (src_lang (direction self)) in
           let self1 := after_engine self w c in
           (exists e, translate text self
                      = (Raise e, logged self1 (TranslationErrorEntry e)))
           \/ (exists out,
                 translate text self
                 = (Return {| original := text; cleaned := c;
                              translated := py_strip out |},
                    stored self1 text
                      {| original := text; cleaned := c;
                         translated := py_strip out |}))).
Proof.
  destruct (translation_cache self !! text) as [r|] eqn:Hc.
  - left. exists r. split; [reflexivity|]. apply translate_hit, Hc.
  - right. split; [reflexivity|].
    destruct (engine (engine_state self) (clean text (src_lang (direction self))))
      as [w [e|raw]] eqn:He; exists w; cbv zeta.
    + left. eexists. apply (translate_miss_engine_raises _ _ _ _ _ _ _ _ _ _ _ Hc He).
    + pose proof (translate_miss_engine_returns nfkd replace_emoji uword uupper
                    W E engine text self w raw Hc He) as Ht.
      cbv zeta in Ht. rewrite Ht.
      destruct (fst (post _ raw _)) as [out|e]; [right|left]; eexists; reflexivity.
Qed.

(** X6: a call of translate_text never removes or changes an entry of
    the cache, whether it returns or raises, and the only key it can
    add is its argument. *)
Theorem translate_text_cache_grows (text : str) (self : pipeline W E) :
  translation_cache self ⊆ translation_cache (snd (translate text self))
  /\ forall k : str,
       k <> text ->
       translation_cache (snd (translate text self)) !! k
       = translation_cache self !! k.
Proof.
  destruct (translate_paths text self)
    as [(r & Hc & ->)|(Hc & w & [(e & ->)|(out & ->)])]; cbn [snd].
  - split; [reflexivity|]. reflexivity.
  - split; reflexivity.
  - cbn. split.
    + apply insert_subseteq. exact Hc.
    + intros k Hk. apply lookup_insert_ne. congruence.
Qed.

(** X7: a call whose text is cached does not call the engine; any
    other call calls it exactly once, with what clean_text returned
    for the text in the source language of the direction. *)
Theorem translate_text_engine_calls (text : str) (self : pipeline W E) :
  engine_calls (snd (translate text self))
  = match translation_cache self !! text with
    | Some _ => engine_calls self
    | None => clean text (src_lang (direction self)) :: engine_calls self
    end.
Proof.
  destruct (translate_paths text self)
    as [(r & Hc & ->)|(Hc & w & [(e & ->)|(out & ->)])]; rewrite Hc; reflexivity.
Qed.

(** X8: a call that returns writes nothing to the log; a call that
    raises writes exactly one entry, for the exception it raises; the
    direction of the pipeline never changes. *)
Theorem translate_text_log (text : str) (self : pipeline W E) :
  log_file (snd (translate text self))
  = match fst (translate text self) with
    | Return _ => log_file self
    | Raise e => TranslationErrorEntry e :: log_file self
    end
  /\ direction (snd (translate text self)) = direction self.
Proof.
  destruct (translate_paths text self)
    as [(r & Hc & ->)|(Hc & w & [(e & ->)|(out & ->)])]; split; reflexivity.
Qed.

(** X9: when every cache entry is the result for its own key (the
    original is the key, cleaned is the cleaned key, the translation
    is stripped), so it is after a call, and so is the result a call
    returns for its text. *)
Theorem translate_text_cache_wf (text : str) (self : pipeline W E) :
  cache_wf nfkd replace_emoji uword W E self ->
  cache_wf nfkd replace_emoji uword W E (snd (translate text self))
  /\ forall r : TranslationResult,
       fst (translate text self) = Return r ->
       original r = text
       /\ cleaned r = clean text (src_lang (direction self))
       /\ py_strip (translated r) = translated r.
Proof.
  intros Hwf.
  destruct (translate_paths text self)
    as [(r & Hc & ->)|(Hc & w & [(e & ->)|(out & ->)])]; cbn [fst snd].
  - split; [exact Hwf|]. intros r' [= <-]. exact (Hwf _ _ Hc).
  - split; [exact Hwf|]. discriminate.
  - split.
    + intros k r Hk. cbn in Hk. rewrite lookup_insert in Hk.
      destruct (decide (text = k)) as [<-|Hne].
      * injection Hk as <-. cbn. repeat split. apply strip_idempotent.
      * exact (Hwf _ _ Hk).
    + intros r [= <-]. cbn. repeat split. apply strip_idempotent.
Qed.

End TranslateEffect.

Lemma translate_text_cache_wf_witness :
  cache_wf Stub.nfkd Stub.replace_emoji Stub.uword nat unit
    (snd (Stub.translate_text Stub.echo (utf8 "  Hello , world ") (Stub.new en_ar)))
  /\ forall r : TranslationResult,
       fst (Stub.translate_text Stub.echo (utf8 "  Hello , world ") (Stub.new en_ar))
       = Return r ->
       original r = utf8 "  Hello , world "
       /\ cleaned r = Stub.clean_text (utf8 "  Hello , world ") (utf8 "en")
       /\ py_strip (translated r) = translated r.
Proof.
  apply (translate_text_cache_wf Stub.nfkd Stub.replace_emoji Stub.uword
           Stub.uupper nat unit Stub.echo (utf8 "  Hello , world ")
           (Stub.new en_ar)).
  intros k r H. cbn in H. rewrite lookup_empty in H. discriminate.
Defined.

(** ** What post-processing does to the characters *)

Lemma sub_punct_shrinks (marks s : str) :
  nonspaces (Re.sub (punct_after_space marks) [Re.TRef 1] s) = nonspaces s
  /\ (length (Re.sub (punct_after_space marks) [Re.TRef 1] s) <= length s)%nat.
Proof.
  apply (sub_rel _ _ (fun _ s o =>
           nonspaces o = nonspaces s /\ (length o <= length s)%nat)).
  - split; [reflexivity|lia].
  - intros _ c s' o [H1 H2]. rewrite !nonspaces_cons, H1. cbn [length].
    split; [reflexivity|lia].
  - intros prev s' j cs o Hm [H1 H2]. rewrite match_at_punct in Hm.
    destruct s' as [|c [|m rest]]; try discriminate.
    destruct (is_space c) eqn:Hc; [|discriminate].
    destruct (one_of marks m); [|discriminate]. cbn [andb] in Hm.
    destruct rest as [|d rest'].
    + injection Hm as <- <-.
      change (Re.expand [Re.TRef 1] [(1%nat, [m])]) with [m].
      change (drop 2 [c; m]) with (@nil N) in H1, H2.
      rewrite nonspaces_app, H1, (nonspaces_cons c), Hc, app_nil_r.
      rewrite length_app. cbn [length] in H2 |- *. split; [reflexivity|lia].
    + destruct (is_space d) eqn:Hd; [|discriminate].
      injection Hm as <- <-.
      change (Re.expand [Re.TRef 1] [(1%nat, [m; d])]) with [m; d].
      change (drop 3 (c :: m :: d :: rest')) with rest' in H1, H2.
      rewrite nonspaces_app, H1, (nonspaces_cons c), Hc.
      rewrite (nonspaces_cons m (d :: rest')), (nonspaces_cons d rest'), Hd.
      rewrite (nonspaces_cons m [d]), (nonspaces_cons d []), Hd.
      rewrite length_app. cbn [length]. split; [|lia].
      destruct (is_space m); reflexivity.
Qed.

(** X10: the substitution of lines 595 and 600 (a whitespace
    character before a punctuation mark that whitespace or the end
    follows) removes whitespace only: the other characters of the text
    are all kept, in their order, and the text does not get longer. *)
Theorem sub_punct_deletes_whitespace_only (marks s : str) :
  nonspaces (Re.sub (punct_after_space marks) [Re.TRef 1] s) = nonspaces s
  /\ (length (Re.sub (punct_after_space marks) [Re.TRef 1] s) <= length s)%nat.
Proof. apply sub_punct_shrinks. Qed.

Lemma nonspaces_map_en_ar (s : str) :
  nonspaces (map en_ar_char s) = map en_ar_char (nonspaces s).
Proof.
  induction s as [|c s IH]; [reflexivity|].
  cbn [map]. rewrite !nonspaces_cons, is_space_en_ar_char, IH.
  destruct (is_space c); reflexivity.
Qed.

Lemma en_ar_char_not_ascii (c : char) :
  en_ar_char c <> 0x2E /\ en_ar_char c <> 0x2C
  /\ en_ar_char c <> QUOTE /\ en_ar_char c <> 0x27.
Proof.
  unfold en_ar_char, QUOTE.
  repeat match goal with
         | |- context [if c =? ?b then _ else _] =>
             destruct (N.eqb_spec c b); [repeat split; discriminate|]
         end.
  repeat split; assumption.
Qed.

(** X11: in direction en-ar the characters of the translated text
    other than whitespace are those of the engine output, in order,
    each full stop, comma, double quote and apostrophe replaced by its
    Arabic counterpart; so no ASCII full stop, comma, double quote or
    apostrophe is left in it. *)
Theorem postprocess_en_ar_characters (raw : str) :
  nonspaces (py_strip (postprocess_en_ar raw)) = map en_ar_char (nonspaces raw)
  /\ Forall (fun c => c <> 0x2E /\ c <> 0x2C /\ c <> QUOTE /\ c <> 0x27)
       (py_strip (postprocess_en_ar raw)).
Proof.
  assert (H : nonspaces (py_strip (postprocess_en_ar raw))
              = map en_ar_char (nonspaces raw)).
  { rewrite nonspaces_strip, postprocess_en_ar_map.
    rewrite (proj1 (sub_punct_shrinks _ _)).
    apply nonspaces_map_en_ar. }
  split; [exact H|].
  apply Forall_forall. intros c Hc.
  destruct (is_space c) eqn:Hs.
  - repeat split; intros ->; discriminate.
  - assert (Hin : c ∈ nonspaces (py_strip (postprocess_en_ar raw))).
    { apply list_elem_of_filter. auto. }
    rewrite H in Hin. apply list_elem_of_fmap in Hin as (c' & -> & _).
    apply en_ar_char_not_ascii.
Qed.

(** ** [split] and the dataset stages *)

Lemma split_go_words (s : str) :
  forall cur : str,
    Forall (fun c => is_space c = false) cur ->
    Forall (fun w => w <> [] /\ Forall (fun c => is_space c = false) w)
      (split_go cur s).
Proof.
  assert (Hrev : forall cur : str, cur <> [] ->
            Forall (fun c => is_space c = false) cur ->
            reverse cur <> [] /\ Forall (fun c => is_space c = false) (reverse cur)).
  { intros cur Hne Hc. split; [|apply Forall_reverse, Hc].
    intros H. apply (f_equal reverse) in H.
    rewrite reverse_involutive in H. exact (Hne H). }
  induction s as [|c s IH]; intros cur Hcur; cbn [split_go].
  - destruct cur as [|d cur]; [constructor|].
    constructor; [|constructor]. apply Hrev; [discriminate|exact Hcur].
  - destruct (is_space c) eqn:Hc.
    + destruct cur as [|d cur]; [apply IH; constructor|].
      constructor; [apply Hrev; [discriminate|exact Hcur]|apply IH; constructor].
    + apply IH. constructor; assumption.
Qed.

Lemma split_go_concat (s : str) :
  forall cur : str, concat (split_go cur s) = reverse cur ++ nonspaces s.
Proof.
  induction s as [|c s IH]; intros cur; cbn [split_go].
  - destruct cur; [reflexivity|]. cbn. rewrite app_nil_r. reflexivity.
  - rewrite nonspaces_cons. destruct (is_space c).
    + destruct cur; [apply IH|]. cbn [concat]. rewrite IH. reflexivity.
    + rewrite IH, reverse_cons, <- app_assoc. reflexivity.
Qed.

(** The words of [split] are non-empty, free of whitespace, and
    together the non-whitespace characters of the text. *)
Lemma py_split_words (s : str) :
  Forall (fun w => w <> [] /\ Forall (fun c => is_space c = false) w) (py_split s)
  /\ concat (py_split s) = nonspaces s.
Proof.
  split; [apply split_go_words; constructor|apply split_go_concat].
Qed.

Lemma py_split_nil (s : str) : py_split s = [] <-> has_nonspace s = false.
Proof.
  destruct (py_split_words s) as [Hw Hc]. rewrite <- nonspaces_nil_iff, <- Hc.
  split; [intros ->; reflexivity|].
  destruct (py_split s) as [|w ws]; [reflexivity|].
  inversion Hw as [|? ? [Hne _] _]; subst.
  cbn. destruct w; [congruence|discriminate].
Qed.

Lemma py_split_words_nonblank (s : str) :
  (1 <= length (py_split s))%nat -> has_nonspace s = true.
Proof.
  intros H. destruct (has_nonspace s) eqn:E; [reflexivity|].
  apply py_split_nil in E. rewrite E in H. cbn in H. lia.
Qed.

Lemma length_filter_spec (x : Data.example) :
  Data.length_filter x = true
  <-> (1 <= length (py_split (Data.src x)) <= 128)%nat
      /\ (1 <= length (py_split (Data.tgt x)) <= 128)%nat.
Proof.
  unfold Data.length_filter. cbv zeta.
  rewrite !andb_true_iff, !Nat.leb_le. tauto.
Qed.

Lemma filter_data_Done (train kept : list Data.example) (c : Data.filter_counts)
    (msgs : list Data.message) :
  Data.filter_data train = (Data.Done (kept, c), msgs) ->
  train <> []
  /\ kept = filter (fun x => Data.length_filter x = true) train
  /\ c = {| Data.before_count := length train;
            Data.after_count := length kept;
            Data.filter_removed_count := (length train - length kept)%nat |}.
Proof.
  unfold Data.filter_data. destruct train as [|x train]; [discriminate|].
  cbn [length]. intros [= <- <- _]. repeat split. discriminate.
Qed.


(** X12: when filter_data returns, what it keeps is the list of rows
    it was given with every row dropped that has not 1 to 128 words on
    each side: the rows that remain are all there, as often as they
    were and in their order.  So both sides of every row kept have a
    character that is not whitespace; and the counts it returns are
    the lengths of the two lists and their difference, which add up. *)
Theorem filter_data_keeps_bounded_rows (train kept : list Data.example)
    (c : Data.filter_counts) (msgs : list Data.message) :
  Data.filter_data train = (Data.Done (kept, c), msgs) ->
  kept = filter (fun x : Data.example =>
                   (1 <= length (py_split (Data.src x)) <= 128)%nat
                   /\ (1 <= length (py_split (Data.tgt x)) <= 128)%nat) train
  /\ kept `sublist_of` train
  /\ (forall x : Data.example,
        x ∈ kept
        <-> x ∈ train
            /\ (1 <= length (py_split (Data.src x)) <= 128)%nat
            /\ (1 <= length (py_split (Data.tgt x)) <= 128)%nat)
  /\ Forall (fun x => has_nonspace (Data.src x) = true
                      /\ has_nonspace (Data.tgt x) = true) kept
  /\ Data.before_count c = length train
  /\ Data.after_count c = length kept
  /\ Data.filter_removed_count c = (length train - length kept)%nat
  /\ (Data.after_count c + Data.filter_removed_count c = Data.before_count c)%nat.
Proof.
  intros H. apply filter_data_Done in H as (_ & -> & ->). cbn.
  split.
  { apply list_filter_iff. intros x. apply length_filter_spec. }
  split; [apply sublist_filter|].
  split.
  { intros x. rewrite list_elem_of_filter, length_filter_spec. tauto. }
  split.
  { apply Forall_forall. intros x Hx.
    apply list_elem_of_filter in Hx as [Hx _].
    apply length_filter_spec in Hx as [[H1 _] [H2 _]].
    split; apply py_split_words_nonblank; assumption. }
  pose proof (length_filter (fun x => Data.length_filter x = true) train).
  repeat split. lia.
Qed.

Lemma filter_data_keeps_bounded_rows_witness :
  [ {| Data.src := utf8 "a b"; Data.tgt := utf8 "c" |};
    {| Data.src := utf8 "a b"; Data.tgt := utf8 "c" |} ]
  = filter (fun x : Data.example =>
              (1 <= length (py_split (Data.src x)) <= 128)%nat
              /\ (1 <= length (py_split (Data.tgt x)) <= 128)%nat)
      [ {| Data.src := utf8 "a b"; Data.tgt := utf8 "c" |};
        {| Data.src := utf8 "   "; Data.tgt := utf8 "d" |};
        {| Data.src := utf8 "a b"; Data.tgt := utf8 "c" |} ].
Proof.
  apply (filter_data_keeps_bounded_rows
           [ {| Data.src := utf8 "a b"; Data.tgt := utf8 "c" |};
             {| Data.src := utf8 "   "; Data.tgt := utf8 "d" |};
             {| Data.src := utf8 "a b"; Data.tgt := utf8 "c" |} ]
           [ {| Data.src := utf8 "a b"; Data.tgt := utf8 "c" |};
             {| Data.src := utf8 "a b"; Data.tgt := utf8 "c" |} ]
           {| Data.before_count := 3; Data.after_count := 2;
              Data.filter_removed_count := 1 |}
           [Data.FilterStart; Data.LengthDistributions;
            Data.Filtered 3 2; Data.Removed 1 3]).
  vm_compute. reflexivity.
Defined.

Section StageFacts.

Variable nfkd : str -> str.
Variable replace_emoji : str -> str.
Variable uword : char -> bool.

Local Abbreviation clean := (clean_text nfkd replace_emoji uword).
Local Abbreviation clean_example := (Data.clean_example nfkd replace_emoji uword).
Local Abbreviation clean_data := (Data.clean_data nfkd replace_emoji uword).
Local Abbreviation clean_then_filter :=
  (Data.clean_then_filter nfkd replace_emoji uword).

Lemma clean_text_Some_allowed (text lang s : str) :
  clean text lang = Some s ->
  s <> [] /\ Forall (fun c => allowed uword lang c = true) s.
Proof.
  intros H. apply clean_text_Some in H as [<- Hne]. split; [exact Hne|].
  unfold clean_steps, allowed.
  destruct (decide (lang = utf8 "ar")); apply sub_disallowed_allowed; reflexivity.
Qed.

Lemma clean_example_Some (d : Direction) (x y : Data.example) :
  clean_example d x = Some y
  <-> clean (Data.src x) (src_lang d) = Some (Data.src y)
      /\ clean (Data.tgt x) (tgt_lang d) = Some (Data.tgt y).
Proof.
  unfold Data.clean_example. destruct y as [s t]. cbn.
  destruct (clean (Data.src x) (src_lang d)), (clean (Data.tgt x) (tgt_lang d));
    split; try (intros [? ?]); try discriminate; try congruence.
  intros [= <- <-]. split; reflexivity.
Qed.

Lemma length_omap_le {A B : Type} (f : A -> option B) (l : list A) :
  (length (omap f l) <= length l)%nat.
Proof.
  induction l as [|a l IH]; [reflexivity|].
  cbn. destruct (f a); cbn; lia.
Qed.

Lemma clean_data_Done (d : Direction) (train kept : list Data.example)
    (c : Data.clean_counts) (msgs : list Data.message) :
  clean_data d train = (Data.Done (kept, c), msgs) ->
  train <> []
  /\ kept = omap (clean_example d) train
  /\ c = {| Data.original_count := length train;
            Data.cleaned_count := length kept;
            Data.clean_removed_count := (length train - length kept)%nat |}.
Proof.
  unfold Data.clean_data. destruct train as [|x train]; [discriminate|].
  cbn [length]. intros [= <- <- _]. repeat split. discriminate.
Qed.

(** clean_data ends the process on an empty split (its log line
    divides by the number of rows), and only then. *)
Lemma clean_data_exits_iff_empty (d : Direction) (train : list Data.example) :
  fst (clean_data d train) = Data.Exited <-> train = [].
Proof.
  unfold Data.clean_data. destruct train; cbn; split; congruence.
Qed.

(** X13: when clean_data returns, every row it keeps is the cleaned
    form of a row it was given, the source cleaned for the source
    language and the target for the target language; both sides are
    non-empty and made of allowed characters only; and the counts add
    up. *)
Theorem clean_data_keeps_cleaned_rows (d : Direction)
    (train kept : list Data.example) (c : Data.clean_counts)
    (msgs : list Data.message) :
  clean_data d train = (Data.Done (kept, c), msgs) ->
  (forall y : Data.example,
     y ∈ kept
     <-> exists x, x ∈ train
           /\ clean (Data.src x) (src_lang d) = Some (Data.src y)
           /\ clean (Data.tgt x) (tgt_lang d) = Some (Data.tgt y))
  /\ Forall (fun y =>
       Data.src y <> [] /\ Data.tgt y <> []
       /\ Forall (fun ch => allowed uword (src_lang d) ch = true) (Data.src y)
       /\ Forall (fun ch => allowed uword (tgt_lang d) ch = true) (Data.tgt y))
       kept
  /\ Data.original_count c = length train
  /\ Data.cleaned_count c = length kept
  /\ (Data.cleaned_count c + Data.clean_removed_count c = Data.original_count c)%nat.
Proof.
  intros H. apply clean_data_Done in H as (_ & -> & ->). cbn.
  assert (Hmem : forall y : Data.example,
            y ∈ omap (clean_example d) train
            <-> exists x, x ∈ train
                  /\ clean (Data.src x) (src_lang d) = Some (Data.src y)
                  /\ clean (Data.tgt x) (tgt_lang d) = Some (Data.tgt y)).
  { intros y. rewrite list_elem_of_omap. split.
    - intros (x & Hx & Hy). exists x. split; [exact Hx|].
      apply clean_example_Some, Hy.
    - intros (x & Hx & Hy). exists x. split; [exact Hx|].
      apply clean_example_Some, Hy. }
  split; [exact Hmem|]. split.
  { apply Forall_forall. intros y Hy. apply Hmem in Hy as (x & _ & Hs & Ht).
    apply clean_text_Some_allowed in Hs as [? ?].
    apply clean_text_Some_allowed in Ht as [? ?]. auto. }
  pose proof (length_omap_le (clean_example d) train).
  repeat split. lia.
Qed.

(** X14: after clean_data and filter_data both sides of every row
    have a character that is not whitespace, at most 128 words, and
    allowed characters only. *)
Theorem clean_then_filter_rows (d : Direction) (train rows : list Data.example) :
  clean_then_filter d train = Data.Done rows ->
  Forall (fun y =>
    has_nonspace (Data.src y) = true /\ has_nonspace (Data.tgt y) = true
    /\ (length (py_split (Data.src y)) <= 128)%nat
    /\ (length (py_split (Data.tgt y)) <= 128)%nat
    /\ Forall (fun ch => allowed uword (src_lang d) ch = true) (Data.src y)
    /\ Forall (fun ch => allowed uword (tgt_lang d) ch = true) (Data.tgt y))
    rows.
Proof.
  unfold Data.clean_then_filter.
  destruct (clean_data d train) as [[[cleaned c]|] msgs] eqn:Hc; [|discriminate].
  cbn [fst].
  destruct (Data.filter_data cleaned) as [[[filtered c']|] msgs'] eqn:Hf;
    [|discriminate].
  cbn [fst]. intros [= <-].
  apply clean_data_Done in Hc as (_ & -> & _).
  apply filter_data_Done in Hf as (_ & -> & _).
  apply Forall_forall. intros y Hy.
  apply list_elem_of_filter in Hy as [Hlen Hy].
  apply length_filter_spec in Hlen as [[H1 H2] [H3 H4]].
  apply list_elem_of_omap in Hy as (x & _ & Hy).
  apply clean_example_Some in Hy as [Hs Ht].
  apply clean_text_Some_allowed in Hs as [_ Hs].
  apply clean_text_Some_allowed in Ht as [_ Ht].
  repeat split; try assumption; apply py_split_words_nonblank; assumption.
Qed.


End StageFacts.

Lemma clean_data_keeps_cleaned_rows_witness :
  Data.original_count
    {| Data.original_count := 4; Data.cleaned_count := 3;
       Data.clean_removed_count := 1 |}
  = length (map (Data.orient ar_en) Demo.corpus).
Proof.
  apply (clean_data_keeps_cleaned_rows Stub.nfkd Stub.replace_emoji Stub.uword
           ar_en (map (Data.orient ar_en) Demo.corpus)
           [ {| Data.src := utf8 "مرحبا بك"; Data.tgt := utf8 "Welcome!" |};
             {| Data.src := utf8 "كيف حالك؟"; Data.tgt := utf8 "   " |};
             {| Data.src := utf8 "القط جلس"; Data.tgt := utf8 "The cat sat." |} ]
           {| Data.original_count := 4; Data.cleaned_count := 3;
              Data.clean_removed_count := 1 |}
           [Data.CleaningStart; Data.WordClouds; Data.CleaningComplete 1 4;
            Data.RemainingSamples 3]).
  vm_compute. reflexivity.
Defined.

Lemma clean_then_filter_rows_witness :
  Forall (fun y =>
    has_nonspace (Data.src y) = true /\ has_nonspace (Data.tgt y) = true
    /\ (length (py_split (Data.src y)) <= 128)%nat
    /\ (length (py_split (Data.tgt y)) <= 128)%nat
    /\ Forall (fun ch => allowed Stub.uword (src_lang ar_en) ch = true) (Data.src y)
    /\ Forall (fun ch => allowed Stub.uword (tgt_lang ar_en) ch = true) (Data.tgt y))
    [ {| Data.src := utf8 "مرحبا بك"; Data.tgt := utf8 "Welcome!" |};
      {| Data.src := utf8 "القط جلس"; Data.tgt := utf8 "The cat sat." |} ].
Proof.
  apply (clean_then_filter_rows Stub.nfkd Stub.replace_emoji Stub.uword
           ar_en (map (Data.orient ar_en) Demo.corpus)).
  vm_compute. reflexivity.
Defined.

Section Mirror.

Variable nfkd : str -> str.
Variable replace_emoji : str -> str.
Variable uword : char -> bool.

Local Abbreviation clean_example := (Data.clean_example nfkd replace_emoji uword).
Local Abbreviation clean_then_filter :=
  (Data.clean_then_filter nfkd replace_emoji uword).

Lemma clean_example_mirror (x : Data.tatoeba) :
  clean_example en_ar (Data.orient en_ar x)
  = Data.mirror <$> clean_example ar_en (Data.orient ar_en x).
Proof.
  unfold Data.clean_example. cbn.
  destruct (clean_text nfkd replace_emoji uword (Data.en x) _),
           (clean_text nfkd replace_emoji uword (Data.ar x) _);
    reflexivity.
Qed.

Lemma omap_clean_mirror (corpus : list Data.tatoeba) :
  omap (clean_example en_ar) (map (Data.orient en_ar) corpus)
  = map Data.mirror (omap (clean_example ar_en) (map (Data.orient ar_en) corpus)).
Proof.
  induction corpus as [|x corpus IH]; [reflexivity|].
  cbn [map omap list_omap]. rewrite clean_example_mirror, IH.
  destruct (clean_example ar_en (Data.orient ar_en x)); reflexivity.
Qed.

Lemma length_filter_mirror (x : Data.example) :
  Data.length_filter (Data.mirror x) = Data.length_filter x.
Proof. unfold Data.length_filter. cbn. apply andb_comm. Qed.

Lemma filter_length_mirror (rows : list Data.example) :
  filter (fun x => Data.length_filter x = true) (map Data.mirror rows)
  = map Data.mirror (filter (fun x => Data.length_filter x = true) rows).
Proof.
  induction rows as [|x rows IH]; [reflexivity|].
  cbn [map]. rewrite !filter_cons, IH, length_filter_mirror.
  destruct (decide (Data.length_filter x = true)); reflexivity.
Qed.

(** X16: the two directions prepare the same corpus to mirror-image
    datasets: a Tatoeba row survives clean_data and filter_data in
    direction en-ar exactly when it does in direction ar-en, with the
    same two cleaned sentences and source and target exchanged; and
    one pipeline ends the process in these stages exactly when the
    other does. *)
Theorem directions_mirror (corpus : list Data.tatoeba) :
  match clean_then_filter ar_en (map (Data.orient ar_en) corpus) with
  | Data.Done rows =>
      clean_then_filter en_ar (map (Data.orient en_ar) corpus)
      = Data.Done (map Data.mirror rows)
  | Data.Exited =>
      clean_then_filter en_ar (map (Data.orient en_ar) corpus) = Data.Exited
  end.
Proof.
  unfold Data.clean_then_filter, Data.clean_data.
  rewrite !length_map. destruct corpus as [|x corpus]; [reflexivity|].
  cbn [length fst]. rewrite omap_clean_mirror.
  unfold Data.filter_data. rewrite length_map.
  destruct (omap (clean_example ar_en) (map (Data.orient ar_en) (x :: corpus)))
    as [|y rows]; [reflexivity|].
  cbn [length fst]. rewrite filter_length_mirror. reflexivity.
Qed.

End Mirror.

(** ** The loops over [translate_text] *)

Section LoopFacts.

Variable nfkd : str -> str.
Variable replace_emoji : str -> str.
Variable uword : char -> bool.
Variable uupper : char -> str.
Variable W : Type.
Variable E : Type.
Variable engine : W -> option str -> W * (E + str).
Variable Score : Type.
Variable sentence_bleu : list (list (list N)) -> list (list N) -> Score.

Local Abbreviation translate :=
  (translate_text nfkd replace_emoji uword uupper W E engine).
Local Abbreviation loop :=
  (evaluate_loop nfkd replace_emoji uword uupper W E engine Score sentence_bleu).

(** A call that returns: the text is in the cache afterwards, the
    cache has grown by at most that key, and the engine was called
    once if the text was not cached and not at all if it was. *)
Lemma translate_return_effect (text : str) (self self' : pipeline W E)
    (r : TranslationResult) :
  translate text self = (Return r, self') ->
  translation_cache self' !! text = Some r
  /\ translation_cache self ⊆ translation_cache self'
  /\ dom (translation_cache self') = {[text]} ∪ dom (translation_cache self)
  /\ exists new,
       engine_calls self' = new ++ engine_calls self
       /\ length new = if decide (text ∈ dom (translation_cache self)) then O else 1%nat.
Proof.
  intros H.
  destruct (translate_paths nfkd replace_emoji uword uupper W E engine text self)
    as [(r0 & Hc & Ht)|(Hc & w & [(e & Ht)|(out & Ht)])];
    rewrite Ht in H; [| discriminate |].
  - injection H as <- <-. split; [exact Hc|]. split; [reflexivity|].
    assert (Hin : text ∈ dom (translation_cache self)).
    { apply elem_of_dom. eauto. }
    split.
    { apply set_eq. intros k. rewrite elem_of_union, elem_of_singleton.
      split; [auto|]. intros [->|]; assumption. }
    exists []. rewrite decide_True by exact Hin.
    split; reflexivity.
  - injection H as <- <-. cbn.
    split; [apply lookup_insert_eq|]. split; [apply insert_subseteq, Hc|].
    split; [apply dom_insert_L|].
    eexists [_]. rewrite decide_False by (apply not_elem_of_dom; exact Hc).
    split; reflexivity.
Qed.

(** A call that raises leaves the cache as it was and calls the engine
    at most once. *)
Lemma translate_raise_effect (text : str) (self self' : pipeline W E)
    (e : pyexn E) :
  translate text self = (Raise e, self') ->
  translation_cache self' = translation_cache self
  /\ exists new, engine_calls self' = new ++ engine_calls self
       /\ (length new <= 1)%nat.
Proof.
  intros H.
  destruct (translate_paths nfkd replace_emoji uword uupper W E engine text self)
    as [(r0 & Hc & Ht)|(Hc & w & [(e0 & Ht)|(out & Ht)])];
    rewrite Ht in H; try discriminate.
  injection H as _ <-. split; [reflexivity|].
  eexists [_]. split; [reflexivity|]. cbn. lia.
Qed.

Lemma loop_cons (x : Data.example) (rest : list Data.example)
    (self : pipeline W E) :
  loop (x :: rest) self
  = match translate (Data.src x) self with
    | (Raise e, self') => (Raise e, self')
    | (Return r, self') =>
        match loop rest self' with
        | (Return bleu_scores, self'') =>
            (Return (sentence_bleu [py_split (Data.tgt x)]
                       (py_split (translated r)) :: bleu_scores), self'')
        | (Raise e, self'') => (Raise e, self'')
        end
    end.
Proof. reflexivity. Qed.

Lemma loop_success (samples : list Data.example) :
  forall (self self' : pipeline W E) (scores : list Score),
    loop samples self = (Return scores, self') ->
    length scores = length samples
    /\ translation_cache self ⊆ translation_cache self'
    /\ (forall x, x ∈ samples -> is_Some (translation_cache self' !! Data.src x))
    /\ exists new,
         engine_calls self' = new ++ engine_calls self
         /\ length new
            = size ((list_to_set (map Data.src samples) : gset (list N))
                    ∖ dom (translation_cache self)).
Proof.
  induction samples as [|x rest IH]; intros self self' scores H.
  - injection H as <- <-. split; [reflexivity|]. split; [reflexivity|].
    split; [intros x Hx; inversion Hx|].
    exists []. split; [reflexivity|].
    cbn [map list_to_set]. rewrite difference_disjoint_L
      by (intros k Hk; exfalso; exact (not_elem_of_empty k Hk)).
    rewrite size_empty. reflexivity.
  - rewrite loop_cons in H.
    destruct (translate (Data.src x) self) as [[r|e] s1] eqn:Ht; [|discriminate].
    destruct (loop rest s1) as [[sc|e] s2] eqn:Hr; [|discriminate].
    injection H as <- <-.
    apply translate_return_effect in Ht as (Hx & Hsub1 & Hdom & new1 & Hc1 & Hl1).
    apply IH in Hr as (Hlen & Hsub2 & Hin & new2 & Hc2 & Hl2).
    split; [cbn; lia|]. split; [etrans; eassumption|].
    split.
    { intros y Hy. apply elem_of_cons in Hy as [->|Hy]; [|auto].
      exists r. eapply lookup_weaken; eassumption. }
    exists (new2 ++ new1). rewrite Hc2, Hc1, app_assoc. split; [reflexivity|].
    rewrite length_app, Hl1, Hl2, Hdom. cbn [map list_to_set].
    generalize (list_to_set (map Data.src rest) : gset (list N)).
    generalize (dom (translation_cache self)).
    intros D R.
    destruct (decide (Data.src x ∈ D)) as [Hd|Hd].
    + rewrite Nat.add_0_r. f_equal. apply set_eq. intros k.
      rewrite !elem_of_difference, !elem_of_union, !elem_of_singleton.
      destruct (decide (k = Data.src x)) as [->|]; tauto.
    + replace (({[Data.src x]} ∪ R) ∖ D)
        with ({[Data.src x]} ∪ (R ∖ ({[Data.src x]} ∪ D))).
      * rewrite (size_union (C := gset (list N)) {[Data.src x]}
                   (R ∖ ({[Data.src x]} ∪ D))).
        -- rewrite size_singleton. lia.
        -- intros k Hk1 Hk2. apply elem_of_singleton in Hk1. subst k.
           apply elem_of_difference in Hk2 as [_ Hk2]. apply Hk2.
           apply elem_of_union. left. apply elem_of_singleton. reflexivity.
      * apply set_eq. intros k. rewrite !elem_of_union, !elem_of_difference,
          !elem_of_union, !elem_of_singleton.
        destruct (decide (k = Data.src x)) as [->|]; tauto.
Qed.

(** X17: when the loop of evaluate_translations goes through, it has
    one BLEU score for each of the first min(num_samples, number of
    validation rows) rows, every source it met is in the cache, no
    cache entry was lost, and the engine was called exactly once for
    each distinct source that was not cached before, however often
    the source occurs. *)
Theorem evaluate_loop_success (num_samples : nat)
    (validation : list Data.example) (self self' : pipeline W E)
    (scores : list Score) :
  loop (eval_samples num_samples validation) self = (Return scores, self') ->
  length scores = min num_samples (length validation)
  /\ translation_cache self ⊆ translation_cache self'
  /\ (forall x, x ∈ eval_samples num_samples validation ->
        is_Some (translation_cache self' !! Data.src x))
  /\ exists new,
       engine_calls self' = new ++ engine_calls self
       /\ length new
          = size ((list_to_set (map Data.src (eval_samples num_samples validation))
                   : gset (list N))
                  ∖ dom (translation_cache self)).
Proof.
  intros H. apply loop_success in H as (Hlen & Hrest).
  split; [|exact Hrest].
  rewrite Hlen. unfold eval_samples. rewrite length_take. lia.
Qed.

(** X18: when the loop of evaluate_translations raises, it is at the
    first sample whose translation raises, with that exception: the
    samples before it were all translated, the ones after it are not
    looked at, and the cache is the one the samples before it left. *)
Theorem evaluate_loop_abort (samples : list Data.example)
    (self : pipeline W E) (e : pyexn E) :
  fst (loop samples self) = Raise e ->
  exists pre x post scores self1,
    samples = pre ++ x :: post
    /\ loop pre self = (Return scores, self1)
    /\ translate (Data.src x) self1 = (Raise e, snd (loop samples self))
    /\ translation_cache (snd (loop samples self)) = translation_cache self1.
Proof.
  revert self. induction samples as [|x rest IH]; intros self H; [discriminate|].
  rewrite loop_cons in H |- *.
  destruct (translate (Data.src x) self) as [[r|e0] s1] eqn:Ht.
  - destruct (loop rest s1) as [[sc|e1] s2] eqn:Hr; [discriminate|].
    cbn in H. injection H as ->.
    specialize (IH s1). rewrite Hr in IH.
    destruct (IH eq_refl) as (pre & y & post & scores & self1 & -> & Hpre & Hy & Hc).
    exists (x :: pre), y, post. eexists. exists self1.
    split; [reflexivity|]. split; [|split; assumption].
    rewrite loop_cons, Ht, Hpre. reflexivity.
  - cbn in H. injection H as ->.
    exists [], x, rest, [], self. cbn [app snd].
    split; [reflexivity|]. split; [reflexivity|]. split; [exact Ht|].
    apply translate_raise_effect in Ht as [Hc _]. exact Hc.
Qed.

Variable lower : str -> str.

Local Abbreviation session :=
  (interactive_translation_test nfkd replace_emoji uword uupper W E engine lower).

Lemma session_cons (text : str) (rest : list (list N)) (self : pipeline W E) :
  session (text :: rest) self
  = if decide (lower text = utf8 "exit") then (TypedExit, [], self)
    else
      match translate text self with
      | (Return result, self') =>
          let '(e, out, self'') := session rest self' in
          (e, PrintResult result :: out, self'')
      | (Raise e, self') =>
          let '(e', out, self'') := session rest self' in
          (e', PrintError e :: out, self'')
      end.
Proof. reflexivity. Qed.

Lemma translate_any_effect (text : str) (self : pipeline W E) :
  translation_cache self ⊆ translation_cache (snd (translate text self))
  /\ exists new,
       engine_calls (snd (translate text self)) = new ++ engine_calls self
       /\ (length new <= 1)%nat.
Proof.
  destruct (translate text self) as [[r|e] s1] eqn:Ht; cbn [snd].
  - apply translate_return_effect in Ht as (_ & Hs & _ & new & Hc & Hl).
    split; [exact Hs|]. exists new. split; [exact Hc|].
    rewrite Hl. destruct (decide _); lia.
  - apply translate_raise_effect in Ht as (Hs & new & Hc & Hl).
    split; [rewrite Hs; reflexivity|]. exists new. auto.
Qed.

(** X19: in interactive_translation_test a failed translation does
    not end the session: every line before the first line whose
    lower-case form is exit gives exactly one printed item, a result
    or an error; the lines after that line have no effect at all; no
    cache entry is lost, and the engine is called at most once per
    line. *)
Theorem interactive_session_until_exit (pre : list (list N)) (q : str)
    (post : list (list N)) (self : pipeline W E) :
  Forall (fun l => lower l <> utf8 "exit") pre ->
  lower q = utf8 "exit" ->
  exists out self',
    session (pre ++ q :: post) self = (TypedExit, out, self')
    /\ session (pre ++ [q]) self = (TypedExit, out, self')
    /\ length out = length pre
    /\ translation_cache self ⊆ translation_cache self'
    /\ exists new,
         engine_calls self' = new ++ engine_calls self
         /\ (length new <= length pre)%nat.
Proof.
  intros Hpre Hq. revert self.
  induction Hpre as [|l pre Hl _ IH]; intros self.
  - exists [], self. cbn [app]. rewrite !session_cons.
    rewrite !decide_True by exact Hq.
    split; [reflexivity|]. split; [reflexivity|]. split; [reflexivity|].
    split; [reflexivity|]. exists []. split; [reflexivity|]. cbn. lia.
  - cbn [app]. rewrite !session_cons. rewrite !decide_False by exact Hl.
    destruct (translate_any_effect l self) as (Hs1 & new1 & Hc1 & Hl1).
    destruct (translate l self) as [[r|e] s1]; cbn [snd] in Hs1, Hc1;
      destruct (IH s1) as (out & self' & H1 & H2 & Hlen & Hs2 & new2 & Hc2 & Hl2);
      rewrite H1, H2.
    + exists (PrintResult r :: out), self'.
      split; [reflexivity|]. split; [reflexivity|]. split; [cbn; lia|].
      split; [etrans; eassumption|].
      exists (new2 ++ new1). rewrite Hc2, Hc1, app_assoc.
      split; [reflexivity|]. rewrite length_app. cbn [length]. lia.
    + exists (PrintError e :: out), self'.
      split; [reflexivity|]. split; [reflexivity|]. split; [cbn; lia|].
      split; [etrans; eassumption|].
      exists (new2 ++ new1). rewrite Hc2, Hc1, app_assoc.
      split; [reflexivity|]. rewrite length_app. cbn [length]. lia.
Qed.

(** X20: when no line typed has the lower-case form exit, the session
    handles every line, printing one item for each, and then ends
    with the EOFError of input(), which is not caught. *)
Theorem interactive_session_end_of_input (lines : list (list N))
    (self : pipeline W E) :
  Forall (fun l => lower l <> utf8 "exit") lines ->
  exists out self',
    session lines self = (EndOfInput, out, self')
    /\ length out = length lines
    /\ translation_cache self ⊆ translation_cache self'.
Proof.
  intros Hall. revert self. induction Hall as [|l lines Hl _ IH]; intros self.
  - exists [], self. repeat split; reflexivity.
  - rewrite session_cons, decide_False by exact Hl.
    destruct (translate_any_effect l self) as (Hs1 & _).
    destruct (translate l self) as [[r|e] s1]; cbn [snd] in Hs1;
      destruct (IH s1) as (out & self' & H1 & Hlen & Hs2); rewrite H1.
    + exists (PrintResult r :: out), self'.
      split; [reflexivity|]. split; [cbn; lia|]. etrans; eassumption.
    + exists (PrintError e :: out), self'.
      split; [reflexivity|]. split; [cbn; lia|]. etrans; eassumption.
Qed.

End LoopFacts.

Lemma evaluate_loop_success_witness :
  length [1%nat; 2%nat; 1%nat]
  = min 5 (length [ {| Data.src := utf8 "a"; Data.tgt := utf8 "x y" |};
                    {| Data.src := utf8 "b c"; Data.tgt := utf8 "x" |};
                    {| Data.src := utf8 "a"; Data.tgt := utf8 "x y" |} ]).
Proof.
  apply (evaluate_loop_success Stub.nfkd Stub.replace_emoji Stub.uword Stub.uupper
           nat unit Stub.echo nat Demo.token_count 5
           [ {| Data.src := utf8 "a"; Data.tgt := utf8 "x y" |};
             {| Data.src := utf8 "b c"; Data.tgt := utf8 "x" |};
             {| Data.src := utf8 "a"; Data.tgt := utf8 "x y" |} ]
           (Stub.new en_ar)
           (snd (Demo.evaluate_loop Stub.echo
                   [ {| Data.src := utf8 "a"; Data.tgt := utf8 "x y" |};
                     {| Data.src := utf8 "b c"; Data.tgt := utf8 "x" |};
                     {| Data.src := utf8 "a"; Data.tgt := utf8 "x y" |} ]
                   (Stub.new en_ar)))
           [1%nat; 2%nat; 1%nat]).
  vm_compute. reflexivity.
Defined.

Lemma evaluate_loop_abort_witness :
  exists pre x post scores self1,
    [ {| Data.src := utf8 "a"; Data.tgt := utf8 "x" |};
      {| Data.src := utf8 "   "; Data.tgt := utf8 "y" |};
      {| Data.src := utf8 "b"; Data.tgt := utf8 "z" |} ]
    = pre ++ x :: post
    /\ Demo.evaluate_loop Stub.echo pre (Stub.new en_ar) = (Return scores, self1)
    /\ Stub.translate_text Stub.echo (Data.src x) self1
       = (Raise (EngineError tt),
          snd (Demo.evaluate_loop Stub.echo
                 [ {| Data.src := utf8 "a"; Data.tgt := utf8 "x" |};
                   {| Data.src := utf8 "   "; Data.tgt := utf8 "y" |};
                   {| Data.src := utf8 "b"; Data.tgt := utf8 "z" |} ]
                 (Stub.new en_ar)))
    /\ translation_cache
         (snd (Demo.evaluate_loop Stub.echo
                 [ {| Data.src := utf8 "a"; Data.tgt := utf8 "x" |};
                   {| Data.src := utf8 "   "; Data.tgt := utf8 "y" |};
                   {| Data.src := utf8 "b"; Data.tgt := utf8 "z" |} ]
                 (Stub.new en_ar)))
       = translation_cache self1.
Proof.
  apply (evaluate_loop_abort Stub.nfkd Stub.replace_emoji Stub.uword Stub.uupper
           nat unit Stub.echo nat Demo.token_count
           [ {| Data.src := utf8 "a"; Data.tgt := utf8 "x" |};
             {| Data.src := utf8 "   "; Data.tgt := utf8 "y" |};
             {| Data.src := utf8 "b"; Data.tgt := utf8 "z" |} ]
           (Stub.new en_ar) (EngineError tt)).
  vm_compute. reflexivity.
Defined.

Lemma interactive_session_until_exit_witness :
  exists out self',
    Demo.interactive_translation_test Stub.echo
      ([utf8 "hi"; utf8 "  "; utf8 "hi"] ++ utf8 "Exit" :: [utf8 "more"])
      (Stub.new en_ar)
    = (TypedExit, out, self')
    /\ Demo.interactive_translation_test Stub.echo
         ([utf8 "hi"; utf8 "  "; utf8 "hi"] ++ [utf8 "Exit"]) (Stub.new en_ar)
       = (TypedExit, out, self')
    /\ length out = length [utf8 "hi"; utf8 "  "; utf8 "hi"]
    /\ translation_cache (Stub.new en_ar) ⊆ translation_cache self'
    /\ exists new,
         engine_calls self' = new ++ engine_calls (Stub.new en_ar)
         /\ (length new <= length [utf8 "hi"; utf8 "  "; utf8 "hi"])%nat.
Proof.
  apply (interactive_session_until_exit Stub.nfkd Stub.replace_emoji Stub.uword
           Stub.uupper nat unit Stub.echo Demo.lower
           [utf8 "hi"; utf8 "  "; utf8 "hi"] (utf8 "Exit") [utf8 "more"]
           (Stub.new en_ar)).
  - repeat constructor; vm_compute; discriminate.
  - vm_compute. reflexivity.
Defined.

Lemma interactive_session_end_of_input_witness :
  exists out self',
    Demo.interactive_translation_test Stub.echo [utf8 "hi"; utf8 "exit now"]
      (Stub.new en_ar)
    = (EndOfInput, out, self')
    /\ length out = length [utf8 "hi"; utf8 "exit now"]
    /\ translation_cache (Stub.new en_ar) ⊆ translation_cache self'.
Proof.
  apply (interactive_session_end_of_input Stub.nfkd Stub.replace_emoji Stub.uword
           Stub.uupper nat unit Stub.echo Demo.lower
           [utf8 "hi"; utf8 "exit now"] (Stub.new en_ar)).
  repeat constructor; vm_compute; discriminate.
Defined.
